(** * DeckOfCards: a standard 52-card deck (Deck.hpp, Deck.cpp)

    The development embeds the two classes of namespace [deck_of_cards]:
    [Card], an immutable (suit, value) pair, and [Deck], which owns two
    vectors of shared handles to cards ([m_cards], the live sequence, and
    [m_original_cards]) and offers [shuffle], [deal_card], [num_cards] and
    [reset].  [size_t] is an unsigned 64-bit integer and [int] a signed
    32-bit one; both are integers of [Z] with the wrap-around written out.
    The C library generator [rand] is a sequence of integers together with
    the position of the next draw. *)

From stdpp Require Import base decidable numbers option list list_numbers.

Local Open Scope Z_scope.

(** ** Machine integers *)

Definition SIZE_MAX : Z := 2 ^ 64 - 1.
Definition INT_MAX : Z := 2 ^ 31 - 1.

(** Conversion to [size_t] (and arithmetic on it) reduces modulo 2^64. *)
Definition to_size_t (z : Z) : Z := z mod 2 ^ 64.

(** Conversion to [int] keeps the low 32 bits, two's complement. *)
Definition to_int (z : Z) : Z := (z + 2 ^ 31) mod 2 ^ 32 - 2 ^ 31.

(** ** Suits and values *)

Inductive Suit : Set := Club | Diamond | Heart | Spade.

Definition Suits : list Suit := [Club; Diamond; Heart; Spade].

Inductive Value : Set :=
  | Ace | Two | Three | Four | Five | Six | Seven
  | Eight | Nine | Ten | Jack | Queen | King.

Definition Values : list Value :=
  [Ace; Two; Three; Four; Five; Six; Seven; Eight; Nine; Ten; Jack; Queen; King].

(** [static_cast<int>] on the two enumerations: [Club = 0], [Ace = 1]. *)
Definition Suit_to_int (s : Suit) : Z :=
  match s with Club => 0 | Diamond => 1 | Heart => 2 | Spade => 3 end.

Definition Value_to_int (v : Value) : Z :=
  match v with
  | Ace => 1 | Two => 2 | Three => 3 | Four => 4 | Five => 5 | Six => 6
  | Seven => 7 | Eight => 8 | Nine => 9 | Ten => 10 | Jack => 11
  | Queen => 12 | King => 13
  end.

Global Instance Suit_eq_dec : EqDecision Suit.
Proof. solve_decision. Defined.

Global Instance Value_eq_dec : EqDecision Value.
Proof. solve_decision. Defined.

(** ** Card *)

Record Card : Set := mkCard { m_suit : Suit; m_value : Value }.

Global Instance Card_eq_dec : EqDecision Card.
Proof. solve_decision. Defined.

(** [Card::Card(Suit suit, Value value)] *)
Definition Card_new (suit : Suit) (value : Value) : Card :=
  {| m_suit := suit; m_value := value |}.

(** [Card::suit() const] and [Card::value() const] *)
Definition suit (this : Card) : Suit := m_suit this.
Definition value (this : Card) : Value := m_value this.

(** [Card::operator==]: the enumerators are compared as integers. *)
Definition Card_eq (this other : Card) : bool :=
  (Suit_to_int (m_suit this) =? Suit_to_int (m_suit other))
  && (Value_to_int (m_value this) =? Value_to_int (m_value other)).

(** The public members of [Card] that can be called on an existing object.
    The copy and move constructors and both assignment operators are
    deleted, so these three are all there is. *)
Inductive CardCall : Set :=
  | call_suit
  | call_value
  | call_eq (other : Card).

Inductive CardResult : Set :=
  | res_suit (s : Suit)
  | res_value (v : Value)
  | res_bool (b : bool).

(** One call on [this]: the result and the object afterwards.  All three
    members are [const]. *)
Definition Card_call (this : Card) (c : CardCall) : CardResult * Card :=
  match c with
  | call_suit => (res_suit (suit this), this)
  | call_value => (res_value (value this), this)
  | call_eq other => (res_bool (Card_eq this other), this)
  end.

Definition Card_calls (this : Card) (cs : list CardCall) : Card :=
  foldl (fun obj c => snd (Card_call obj c)) this cs.

(** ** Shared handles

    A [std::shared_ptr<Card>] is either null or points to a card.  A card
    cannot change once it is made, so a handle is modelled by the card it
    points to. *)

Definition CardPtr : Set := option Card.
Definition nullptr : CardPtr := None.
Definition make_shared (suit : Suit) (value : Value) : CardPtr :=
  Some (Card_new suit value).

(** ** CardHash and CardEqual

    Both functors dereference their arguments; on a null handle that is
    undefined, modelled by [None].  [std::hash<int>] belongs to the
    standard library and is a parameter. *)

Section Functors.
Variable hash_int : Z -> Z.

Definition CardHash (card : CardPtr) : option Z :=
  match card with
  | Some c =>
      Some (Z.lxor (hash_int (Suit_to_int (suit c)))
                   (hash_int (Value_to_int (value c))))
  | None => None
  end.

Definition CardEqual (lhs rhs : CardPtr) : option bool :=
  match lhs, rhs with
  | Some l, Some r => Some (Card_eq l r)
  | _, _ => None
  end.

End Functors.

(** ** The random source

    [rng_seq] is the sequence of values that successive calls of [rand]
    return and [rng_pos] the number of calls made so far.  [srand] starts
    the sequence that belongs to its seed. *)

Record Rng : Type := mkRng { rng_seq : nat -> Z; rng_pos : nat }.

Definition srand (seeded : nat -> Z) : Rng :=
  {| rng_seq := seeded; rng_pos := 0 |}.

Definition rand (g : Rng) : Z * Rng :=
  (rng_seq g (rng_pos g), {| rng_seq := rng_seq g; rng_pos := S (rng_pos g) |}).

(** ** Deck *)

Record Deck : Set := mkDeck {
  m_cards : list CardPtr;
  m_original_cards : list CardPtr
}.

Definition push_back {A : Type} (v : list A) (x : A) : list A := v ++ [x].

(** The two nested range-for loops of the constructor. *)
Definition build_cards : list CardPtr :=
  foldl (fun cards s =>
           foldl (fun cards v => push_back cards (make_shared s v)) cards Values)
        [] Suits.

(** [Deck::Deck()]: seeds the generator, fills [m_cards], then copies it
    to [m_original_cards]. *)
Definition Deck_new (seeded : nat -> Z) : Deck * Rng :=
  let g := srand seeded in
  let cards := build_cards in
  ({| m_cards := cards; m_original_cards := cards |}, g).

(** [Deck::num_cards()] *)
Definition num_cards (d : Deck) : nat := length (m_cards d).

(** [Deck::reset()] *)
Definition reset (d : Deck) : Deck :=
  {| m_cards := m_original_cards d; m_original_cards := m_original_cards d |}.

(** [Deck::deal_card()] *)
Definition deal_card (d : Deck) : CardPtr * Deck :=
  if bool_decide (0 < num_cards d)%nat then
    match last (m_cards d) with
    | Some card =>
        (card, {| m_cards := removelast (m_cards d);
                  m_original_cards := m_original_cards d |})
    | None => (nullptr, d)
    end
  else (nullptr, d).

(** *** Shuffle *)

(** What an operation that can go wrong gives back. *)
Inductive fault : Set := ModuloByZero | OutOfBounds.

Inductive outcome (A : Type) : Type :=
  | Ok (a : A)
  | Fault (f : fault)
  | OutOfFuel.
Arguments Ok {A} a.
Arguments Fault {A} f.
Arguments OutOfFuel {A}.

Definition is_Ok {A : Type} (o : outcome A) : Prop := exists a, o = Ok a.

(** [std::iter_swap(v.begin() + i, v.begin() + j)]: both positions must
    hold an element. *)
Definition iter_swap {A : Type} (v : list A) (i j : Z) : option (list A) :=
  if bool_decide (0 <= i /\ 0 <= j) then
    match v !! Z.to_nat i, v !! Z.to_nat j with
    | Some x, Some y => Some (<[Z.to_nat j := x]> (<[Z.to_nat i := y]> v))
    | _, _ => None
    end
  else None.

(** The value that [int j = rand() % (i + 1)] stores when [rand] returned
    [r]: the remainder is computed in [size_t], then converted to [int].
    The divisor [i + 1] must not be zero. *)
Definition rand_mod (r i : Z) : Z := to_int (to_size_t r mod to_size_t (i + 1)).

(** The body of [for (size_t i = m_cards.size() - 1; i > 0; --i)]; [i] is
    a [size_t]. *)
Fixpoint shuffle_loop (fuel : nat) (i : Z) (cards : list CardPtr) (g : Rng)
  : outcome (list CardPtr * Rng) :=
  if bool_decide (i > 0) then
    match fuel with
    | O => OutOfFuel
    | S fuel' =>
        let '(r, g') := rand g in
        if bool_decide (to_size_t (i + 1) = 0) then Fault ModuloByZero
        else
          let j := rand_mod r i in
          match iter_swap cards i j with
          | Some cards' => shuffle_loop fuel' (to_size_t (i - 1)) cards' g'
          | None => Fault OutOfBounds
          end
    end
  else Ok (cards, g).

(** [Deck::shuffle()].  The loop counter starts at [size() - 1], computed
    in [size_t]; the loop never needs more fuel than given here (see
    [shuffle_never_out_of_fuel]). *)
Definition shuffle (d : Deck) (g : Rng) : outcome (Deck * Rng) :=
  match shuffle_loop (S (length (m_cards d)))
                     (to_size_t (Z.of_nat (length (m_cards d)) - 1))
                     (m_cards d) g with
  | Ok (cards, g') =>
      Ok ({| m_cards := cards; m_original_cards := m_original_cards d |}, g')
  | Fault f => Fault f
  | OutOfFuel => OutOfFuel
  end.

(** ** Sequences of calls on one deck *)

Inductive Op : Set := op_shuffle | op_deal_card | op_reset.

(** The deck together with the process-wide generator. *)
Definition World : Type := Deck * Rng.

Definition step (w : World) (o : Op) : outcome World :=
  match o with
  | op_shuffle => shuffle (fst w) (snd w)
  | op_deal_card => Ok (snd (deal_card (fst w)), snd w)
  | op_reset => Ok (reset (fst w), snd w)
  end.

Fixpoint run (ops : list Op) (w : World) : outcome World :=
  match ops with
  | [] => Ok w
  | o :: ops' =>
      match step w o with
      | Ok w' => run ops' w'
      | Fault f => Fault f
      | OutOfFuel => OutOfFuel
      end
  end.

(** A deck state is reachable when some sequence of calls on a newly
    constructed deck ends in it. *)
Definition reachable (d : Deck) : Prop :=
  exists seeded ops g, run ops (Deck_new seeded) = Ok (d, g).

(** [n] calls of [deal_card] in a row: the handles returned, in order, and
    the deck afterwards. *)
Fixpoint deal_n (n : nat) (d : Deck) : list CardPtr * Deck :=
  match n with
  | O => ([], d)
  | S n' =>
      let '(card, d') := deal_card d in
      let '(rest, d'') := deal_n n' d' in
      (card :: rest, d'')
  end.

(** ** The Fisher-Yates algorithm as the specification words it

    "For index i from size-1 down to 1, draw an integer j in [0, i], swap
    the elements at i and j."  [draw i] is the integer drawn at index [i]. *)

Definition list_swap {A : Type} (l : list A) (i j : nat) : list A :=
  match l !! i, l !! j with
  | Some x, Some y => <[j := x]> (<[i := y]> l)
  | _, _ => l
  end.

Fixpoint fisher_yates {A : Type} (draw : nat -> nat) (i : nat) (l : list A)
  : list A :=
  match i with
  | O => l
  | S i' => fisher_yates draw i' (list_swap l i (draw i))
  end.

(** The integer that [shuffle] draws at index [i] when the loop started at
    index [top] with generator [g]: the draw is call number [top - i]. *)
Definition shuffle_draw (g : Rng) (top i : nat) : nat :=
  Z.to_nat (rand_mod (rng_seq g (rng_pos g + (top - i))%nat) (Z.of_nat i)).

(** ** Counting draws

    [draw_count RAND_MAX i j] is the number of values [r] of [rand], out of
    the [RAND_MAX + 1] possible ones, for which index [i] draws [j].  The
    draw is uniform when every [j] in [0, i] has the same count. *)

Definition draw_count (RAND_MAX i j : Z) : nat :=
  length (filter (fun r => rand_mod r i = j) (seqZ 0 (RAND_MAX + 1))).

Definition uniform_draw (RAND_MAX i : Z) : Prop :=
  forall j j', 0 <= j <= i -> 0 <= j' <= i ->
    draw_count RAND_MAX i j = draw_count RAND_MAX i j'.

(** ** The deck invariant *)

Definition deck_inv (d : Deck) : Prop :=
  m_original_cards d = build_cards
  /\ NoDup (m_cards d)
  /\ m_cards d ⊆ m_original_cards d
  /\ (num_cards d <= 52)%nat.

(** ** Auxiliary definitions *)

(** Whether a sequence of calls, started on a deck of [n] cards, never
    calls [shuffle] on a deck without cards. *)
Fixpoint calls_defined (n : nat) (ops : list Op) : bool :=
  match ops with
  | [] => true
  | op_shuffle :: ops' => bool_decide (0 < n)%nat && calls_defined n ops'
  | op_deal_card :: ops' => calls_defined (pred n) ops'
  | op_reset :: ops' => calls_defined 52 ops'
  end.

(** The transposition of [i] and [j]. *)
Definition transpose (i j k : nat) : nat :=
  if decide (k = i) then j else if decide (k = j) then i else k.

(** The generator after [k] more calls of [rand]. *)
Definition advance (g : Rng) (k : nat) : Rng :=
  {| rng_seq := rng_seq g; rng_pos := rng_pos g + k |}.

(** ** Running examples *)

(** The calls used as the running example. *)
Definition example_ops : list Op :=
  [op_deal_card; op_shuffle; op_deal_card; op_reset; op_shuffle; op_deal_card].

(** A generator sequence for examples: 128 values in [0, 32767] from a
    linear congruential recurrence, then zeros. *)
Definition example_table : list Z :=
  Eval vm_compute in
    map (fun n => (Z.of_nat n * 1103515245 + 12345) / 65536 mod 32768)
        (seq 0 128).

Definition example_seq (n : nat) : Z := nth n example_table 0.

(** The state after the example calls, and after a single [shuffle] of a
    new deck. *)
Definition example_world : World :=
  match run example_ops (Deck_new example_seq) with
  | Ok w => w
  | _ => Deck_new example_seq
  end.

Definition example_shuffled : World :=
  match shuffle (fst (Deck_new example_seq)) (snd (Deck_new example_seq)) with
  | Ok w => w
  | _ => Deck_new example_seq
  end.

(** ** The statistical test harness (DeckTest.cpp)

    The harness counts, over many shuffles, how often each card comes out
    at each position.  Its integer part is embedded here: [get_category],
    the histogram of [ChiSquaredTest] and the observation loops of
    [ShuffleStatisticalTest].  The chi-squared statistic itself is
    floating point and is left out; the [double] members of the class and
    the library distribution are carried along uninterpreted. *)

(** The ways an evaluation can end without a value: a C++ exception
    ([out_of_range], [length_error], [library_exception]) or undefined
    behaviour. *)
Inductive failure : Set :=
  | out_of_range
  | length_error
  | library_exception
  | null_dereference
  | int_overflow
  | vector_out_of_bounds
  | shuffle_fault (f : fault)
  | shuffle_out_of_fuel.

Inductive attempt (A : Type) : Type :=
  | Done (a : A)
  | Failed (f : failure).
Arguments Done {A} a.
Arguments Failed {A} f.

Definition attempt_bind {A B : Type} (x : attempt A) (k : A -> attempt B)
  : attempt B :=
  match x with
  | Done a => k a
  | Failed f => Failed f
  end.

Notation "x <- e ;; k" := (attempt_bind e (fun x => k))
  (at level 100, e at next level, k at level 200, right associativity,
   only parsing).

(** The result of an [int] operation: signed overflow is undefined. *)
Definition int_of (z : Z) : attempt Z :=
  if bool_decide (- 2 ^ 31 <= z <= INT_MAX) then Done z else Failed int_overflow.

(** [get_category(suit, value, position)] *)
Definition get_category (suit : Suit) (value : Value) (position : Z)
  : attempt Z :=
  let suit_index := Suit_to_int suit in
  let value_index := Value_to_int value in
  let num_values := to_int (Z.of_nat (length Values)) in
  let num_suits := to_int (Z.of_nat (length Suits)) in
  num_cards <- int_of (num_suits * num_values) ;;
  scaled <- int_of (suit_index * num_values) ;;
  offset <- int_of (value_index - 1) ;;
  card_index <- int_of (scaled + offset) ;;
  base <- int_of (card_index * num_cards) ;;
  int_of (base + position).

Section ChiSquared.
Variable double : Type.
Variable chi_squared_distribution : Type.
Variable double_zero : double.

(** The constructor of the library distribution; [None] when it throws. *)
Variable make_distribution : Z -> option chi_squared_distribution.

Record ChiSquaredTest : Type := mkChiSquaredTest {
  m_dofs : Z;
  m_observed : list Z;
  m_expected : double;
  m_chi_squared_dist : chi_squared_distribution;
  m_chi_squared : double;
  m_threshold : double
}.

(** [ChiSquaredTest(int num_categories, double expected_frequency)]: the
    members are initialised in the order of their declaration.  A
    negative [num_categories] becomes a vector size beyond [max_size]. *)
Definition ChiSquaredTest_new (num_categories : Z) (expected_frequency : double)
  : attempt ChiSquaredTest :=
  dofs <- int_of (num_categories - 1) ;;
  if bool_decide (num_categories < 0) then Failed length_error
  else
    match make_distribution dofs with
    | Some dist =>
        Done {| m_dofs := dofs;
                m_observed := replicate (Z.to_nat num_categories) 0;
                m_expected := expected_frequency;
                m_chi_squared_dist := dist;
                m_chi_squared := double_zero;
                m_threshold := double_zero |}
    | None => Failed library_exception
    end.

(** [ChiSquaredTest::add_observation(int category)]: the second test
    compares [category], converted to [size_t], with the vector size. *)
Definition add_observation (this : ChiSquaredTest) (category : Z)
  : attempt ChiSquaredTest :=
  if bool_decide (category < 0
                  \/ to_size_t category >= Z.of_nat (length (m_observed this)))
  then Failed out_of_range
  else
    match m_observed this !! Z.to_nat category with
    | Some count =>
        count' <- int_of (count + 1) ;;
        Done {| m_dofs := m_dofs this;
                m_observed := <[Z.to_nat category := count']> (m_observed this);
                m_expected := m_expected this;
                m_chi_squared_dist := m_chi_squared_dist this;
                m_chi_squared := m_chi_squared this;
                m_threshold := m_threshold this |}
    | None => Failed vector_out_of_bounds
    end.

(** Several calls of [add_observation] in a row. *)
Fixpoint add_observations (this : ChiSquaredTest) (categories : list Z)
  : attempt ChiSquaredTest :=
  match categories with
  | [] => Done this
  | category :: rest =>
      this' <- add_observation this category ;;
      add_observations this' rest
  end.

(** The second inner loop of [ShuffleStatisticalTest]:
    [for (int j = ...; j < num_cards; ++j)] with [count] iterations to
    go; each reads [shuffled_order[j]], dereferences the handle and
    records its category. *)
Fixpoint observe_loop (count : nat) (j : Z) (shuffled_order : list CardPtr)
    (chi_squared : ChiSquaredTest) : attempt ChiSquaredTest :=
  match count with
  | O => Done chi_squared
  | S count' =>
      match shuffled_order !! Z.to_nat j with
      | Some (Some card) =>
          index <- get_category (suit card) (value card) j ;;
          chi_squared' <- add_observation chi_squared index ;;
          j' <- int_of (j + 1) ;;
          observe_loop count' j' shuffled_order chi_squared'
      | Some None => Failed null_dereference
      | None => Failed vector_out_of_bounds
      end
  end.

(** One iteration of the outer loop: reset, shuffle, deal [num_cards]
    cards into [shuffled_order], record them. *)
Definition shuffle_round (num_cards : Z) (w : World) (chi_squared : ChiSquaredTest)
  : attempt (World * ChiSquaredTest) :=
  match shuffle (reset (fst w)) (snd w) with
  | Ok (deck, g) =>
      let '(shuffled_order, deck') := deal_n (Z.to_nat num_cards) deck in
      chi_squared' <- observe_loop (Z.to_nat num_cards) 0 shuffled_order chi_squared ;;
      Done ((deck', g), chi_squared')
  | Fault f => Failed (shuffle_fault f)
  | OutOfFuel => Failed shuffle_out_of_fuel
  end.

Fixpoint shuffle_rounds (rounds : nat) (num_cards : Z) (w : World)
    (chi_squared : ChiSquaredTest) : attempt (World * ChiSquaredTest) :=
  match rounds with
  | O => Done (w, chi_squared)
  | S rounds' =>
      next <- shuffle_round num_cards w chi_squared ;;
      shuffle_rounds rounds' num_cards (fst next) (snd next)
  end.

(** [ShuffleStatisticalTest] up to the call of [passes_test]: the deck,
    the generator and the histogram after [num_shuffles] rounds (1000 in
    the source).  [expected] is the quotient
    [static_cast<double>(num_shuffles) / num_cards]. *)
Definition ShuffleStatisticalTest_counts (seeded : nat -> Z) (num_shuffles : Z)
    (expected : double) : attempt (World * ChiSquaredTest) :=
  let w := Deck_new seeded in
  let num_cards := to_int (to_size_t (Z.of_nat (num_cards (fst w)))) in
  dofs <- int_of (num_cards * num_cards) ;;
  chi_squared <- ChiSquaredTest_new dofs expected ;;
  shuffle_rounds (Z.to_nat num_shuffles) num_cards w chi_squared.

End ChiSquared.

Arguments m_dofs {double chi_squared_distribution} _.
Arguments m_observed {double chi_squared_distribution} _.
Arguments m_expected {double chi_squared_distribution} _.
Arguments m_chi_squared_dist {double chi_squared_distribution} _.
Arguments m_chi_squared {double chi_squared_distribution} _.
Arguments m_threshold {double chi_squared_distribution} _.
Arguments add_observation {double chi_squared_distribution} this category.
Arguments add_observations {double chi_squared_distribution} this categories.
Arguments observe_loop {double chi_squared_distribution}
  count j shuffled_order chi_squared.
Arguments shuffle_round {double chi_squared_distribution} num_cards w chi_squared.
Arguments shuffle_rounds {double chi_squared_distribution}
  rounds num_cards w chi_squared.
Arguments ChiSquaredTest_new {double chi_squared_distribution}
  double_zero make_distribution num_categories expected_frequency.
Arguments ShuffleStatisticalTest_counts {double chi_squared_distribution}
  double_zero make_distribution seeded num_shuffles expected.

(** The orders in which the cards come out in successive rounds of
    reset, shuffle and dealing everything, and the state after them;
    [None] if a shuffle does not return. *)
Fixpoint dealt_orders (rounds : nat) (w : World)
  : option (list (list CardPtr) * World) :=
  match rounds with
  | O => Some ([], w)
  | S rounds' =>
      match shuffle (reset (fst w)) (snd w) with
      | Ok (deck, g) =>
          let '(order, deck') := deal_n 52 deck in
          match dealt_orders rounds' (deck', g) with
          | Some (orders, w') => Some (order :: orders, w')
          | None => None
          end
      | _ => None
      end
  end.

(** The number of times [category] occurs among [categories]. *)
Definition occurrences (category : Z) (categories : list Z) : Z :=
  Z.of_nat (length (filter (fun c => c = category) categories)).

(** The sum of a histogram. *)
Definition total (observed : list Z) : Z := foldr Z.add 0 observed.

(** The category that [observe_loop] records for the handle dealt at
    [position] (a null handle has none), and the categories of a whole
    dealt order. *)
Definition card_category (card : CardPtr) (position : Z) : Z :=
  match card with
  | Some c =>
      52 * (13 * Suit_to_int (suit c) + (Value_to_int (value c) - 1)) + position
  | None => 0
  end.

Definition order_categories (order : list CardPtr) : list Z :=
  imap (fun j card => card_category card (Z.of_nat j)) order.

(** The number of dealt orders in which [card] came out at [position]. *)
Definition frequency (card : CardPtr) (position : nat)
    (orders : list (list CardPtr)) : Z :=
  Z.of_nat (length (filter (fun order => order !! position = Some card) orders)).

(** Two test objects that differ at most in their histogram. *)
Definition same_parameters {double chi_squared_distribution : Type}
    (t t' : ChiSquaredTest double chi_squared_distribution) : Prop :=
  m_dofs t' = m_dofs t
  /\ m_expected t' = m_expected t
  /\ m_chi_squared_dist t' = m_chi_squared_dist t
  /\ m_chi_squared t' = m_chi_squared t
  /\ m_threshold t' = m_threshold t.

(** The number of calls of [rand] that a sequence of calls makes when
    started on a deck of [n] cards: [shuffle] draws once for every card
    but one, the other calls never draw. *)
Fixpoint rand_calls (n : nat) (ops : list Op) : nat :=
  match ops with
  | [] => 0
  | op_shuffle :: ops' => (n - 1) + rand_calls n ops'
  | op_deal_card :: ops' => rand_calls (pred n) ops'
  | op_reset :: ops' => rand_calls 52 ops'
  end.

(** * Properties *)

(** ** Card *)

Lemma Suit_to_int_inj (s s' : Suit) : Suit_to_int s = Suit_to_int s' -> s = s'.
Proof. destruct s, s'; simpl; intros H; first [reflexivity | discriminate H]. Qed.

Lemma Value_to_int_inj (v v' : Value) :
  Value_to_int v = Value_to_int v' -> v = v'.
Proof. destruct v, v'; simpl; intros H; first [reflexivity | discriminate H]. Qed.

Lemma Card_eq_spec (a b : Card) :
  Card_eq a b = true <-> suit a = suit b /\ value a = value b.
Proof.
  unfold Card_eq, suit, value.
  rewrite andb_true_iff, !Z.eqb_eq. split.
  - intros [Hs Hv]. auto using Suit_to_int_inj, Value_to_int_inj.
  - intros [-> ->]. auto.
Qed.

Lemma Card_calls_id (this : Card) (cs : list CardCall) : Card_calls this cs = this.
Proof.
  unfold Card_calls. induction cs as [|c cs IH]; simpl; [reflexivity|].
  destruct c; exact IH.
Qed.

(** C9: a card constructed from a suit and a value returns that suit from
    [suit()] and that value from [value()]; after any sequence of calls of
    its members the object still returns them; and [operator==] holds
    exactly when both the suits and the values match. *)
Theorem Card_accessors_and_equality :
  (forall (s : Suit) (v : Value),
      suit (Card_new s v) = s /\ value (Card_new s v) = v)
  /\ (forall (s : Suit) (v : Value) (cs : list CardCall),
      suit (Card_calls (Card_new s v) cs) = s
      /\ value (Card_calls (Card_new s v) cs) = v)
  /\ (forall a b : Card,
      Card_eq a b = true <-> suit a = suit b /\ value a = value b).
Proof.
  split; [|split].
  - intros s v. split; reflexivity.
  - intros s v cs. rewrite Card_calls_id. split; reflexivity.
  - exact Card_eq_spec.
Qed.

(** ** CardHash and CardEqual *)

(** C10: two non-null handles that [CardEqual] judges equal have the same
    [CardHash], whatever [std::hash<int>] is. *)
Theorem CardHash_respects_CardEqual (hash_int : Z -> Z) (lhs rhs : CardPtr) :
  lhs <> nullptr -> rhs <> nullptr ->
  CardEqual lhs rhs = Some true ->
  CardHash hash_int lhs = CardHash hash_int rhs
  /\ is_Some (CardHash hash_int lhs).
Proof.
  intros Hl Hr Heq.
  destruct lhs as [l|]; [|contradiction Hl; reflexivity].
  destruct rhs as [r|]; [|contradiction Hr; reflexivity].
  simpl in Heq. injection Heq as Heq.
  apply Card_eq_spec in Heq as [Hs Hv].
  simpl. rewrite Hs, Hv. split; [reflexivity | eexists; reflexivity].
Qed.

Lemma CardHash_respects_CardEqual_witness :
  CardHash (fun z => z) (make_shared Heart Queen)
  = CardHash (fun z => z) (Some (mkCard Heart Queen))
  /\ is_Some (CardHash (fun z => z) (make_shared Heart Queen)).
Proof.
  apply (CardHash_respects_CardEqual (fun z => z)
           (make_shared Heart Queen) (Some (mkCard Heart Queen))).
  - discriminate.
  - discriminate.
  - reflexivity.
Defined.

Example CardHash_queen_of_hearts :
  CardHash (fun z => z) (make_shared Heart Queen) = Some 14.
Proof. reflexivity. Qed.

Example CardEqual_null : CardEqual (make_shared Heart Queen) nullptr = None.
Proof. reflexivity. Qed.

(** ** Construction *)

Lemma build_cards_unfold :
  build_cards = flat_map (fun s => map (make_shared s) Values) Suits.
Proof. reflexivity. Qed.

Lemma build_cards_length : length build_cards = 52%nat.
Proof. reflexivity. Qed.

Lemma build_cards_NoDup : NoDup build_cards.
Proof. apply (bool_decide_unpack _). vm_compute. reflexivity. Qed.

Lemma build_cards_lookup (s : Suit) (v : Value) :
  build_cards !! Z.to_nat (13 * Suit_to_int s + (Value_to_int v - 1))
  = Some (make_shared s v).
Proof. destruct s, v; reflexivity. Qed.

Lemma build_cards_elem (c : CardPtr) :
  c ∈ build_cards <-> exists s v, c = make_shared s v.
Proof.
  split.
  - rewrite build_cards_unfold. intros Hc.
    apply list_elem_of_In, in_flat_map in Hc as (s & _ & Hc).
    apply in_map_iff in Hc as (v & <- & _). eauto.
  - intros (s & v & ->). apply list_elem_of_lookup.
    eexists. apply build_cards_lookup.
Qed.

Lemma build_cards_not_null : nullptr ∉ build_cards.
Proof. intros (s & v & H)%build_cards_elem. discriminate H. Qed.

(** C1: a newly constructed deck holds 52 cards, no handle twice, every
    (suit, value) combination exactly once and nothing else, in the order
    of the nested loops (suits outside, values Ace to King inside), and
    the live sequence equals the original one. *)
Theorem Deck_new_contents (seeded : nat -> Z) :
  let d := fst (Deck_new seeded) in
  num_cards d = 52%nat
  /\ NoDup (m_cards d)
  /\ (forall (s : Suit) (v : Value),
        length (filter (fun c => c = make_shared s v) (m_cards d)) = 1%nat)
  /\ Forall (fun c => exists s v, c = make_shared s v) (m_cards d)
  /\ m_cards d = flat_map (fun s => map (make_shared s) Values) Suits
  /\ (forall (s : Suit) (v : Value),
        m_cards d !! Z.to_nat (13 * Suit_to_int s + (Value_to_int v - 1))
        = Some (make_shared s v))
  /\ m_cards d = m_original_cards d.
Proof.
  simpl. repeat split.
  - exact build_cards_NoDup.
  - intros s v. destruct s, v; vm_compute; reflexivity.
  - apply Forall_forall. intros c Hc. by apply build_cards_elem.
  - exact build_cards_lookup.
Qed.

(** ** Dealing *)

Lemma deal_card_empty (d : Deck) : m_cards d = [] -> deal_card d = (nullptr, d).
Proof. intros H. unfold deal_card, num_cards. rewrite H. reflexivity. Qed.

Lemma deal_card_snoc (d : Deck) (l : list CardPtr) (c : CardPtr) :
  m_cards d = l ++ [c] ->
  deal_card d = (c, {| m_cards := l; m_original_cards := m_original_cards d |}).
Proof.
  intros H. unfold deal_card, num_cards. rewrite H.
  rewrite bool_decide_eq_true_2 by (rewrite length_app; simpl; lia).
  rewrite last_snoc, removelast_last. reflexivity.
Qed.

Lemma list_snoc_cases {A : Type} (l : list A) :
  l = [] \/ exists l' x, l = l' ++ [x].
Proof.
  destruct (last l) as [x|] eqn:E.
  - right. apply last_Some in E as [l' ->]. eauto.
  - left. by apply last_None.
Qed.

Lemma deal_card_original (d : Deck) :
  m_original_cards (snd (deal_card d)) = m_original_cards d.
Proof.
  destruct (list_snoc_cases (m_cards d)) as [E | (l & c & E)].
  - by rewrite (deal_card_empty d E).
  - by rewrite (deal_card_snoc d l c E).
Qed.

Lemma deal_card_num_cards (d : Deck) :
  num_cards (snd (deal_card d)) = pred (num_cards d).
Proof.
  destruct (list_snoc_cases (m_cards d)) as [E | (l & c & E)].
  - rewrite (deal_card_empty d E). unfold num_cards. simpl. by rewrite E.
  - rewrite (deal_card_snoc d l c E). unfold num_cards. simpl.
    rewrite E, length_app. simpl. lia.
Qed.

(** [n] deals hand out the live sequence from its end, then null handles;
    what stays is the front of the live sequence. *)
Lemma deal_n_spec (n : nat) (d : Deck) :
  deal_n n d =
    (take n (reverse (m_cards d))
       ++ replicate (n - length (m_cards d)) nullptr,
     {| m_cards := take (length (m_cards d) - n) (m_cards d);
        m_original_cards := m_original_cards d |}).
Proof.
  revert d. induction n as [|n IH]; intros d.
  - simpl. rewrite Nat.sub_0_r, firstn_all. by destruct d.
  - simpl. destruct (list_snoc_cases (m_cards d)) as [E | (l & c & E)].
    + rewrite (deal_card_empty d E), IH, E. simpl.
      change (reverse (@nil CardPtr)) with (@nil CardPtr).
      by rewrite take_nil, Nat.sub_0_r.
    + rewrite (deal_card_snoc d l c E), IH, E. simpl.
      rewrite reverse_snoc, length_app. simpl.
      replace (length l + 1 - S n)%nat with (length l - n)%nat by lia.
      replace (S n - (length l + 1))%nat with (n - length l)%nat by lia.
      rewrite take_app_le by lia. reflexivity.
Qed.

Example deal_three_from_new_deck :
  fst (deal_n 3 (fst (Deck_new example_seq)))
  = [make_shared Spade King; make_shared Spade Queen; make_shared Spade Jack].
Proof. reflexivity. Qed.

(** ** Swapping two positions *)

Lemma transpose_inj (i j : nat) : Inj (=) (=) (transpose i j).
Proof.
  intros a b. unfold transpose.
  repeat case_decide; intros; subst; congruence.
Qed.

Section Swap.
Context {A : Type}.
Implicit Types l : list A.

Lemma list_swap_length l i j : length (list_swap l i j) = length l.
Proof.
  unfold list_swap. destruct (l !! i), (l !! j); try reflexivity.
  by rewrite !length_insert.
Qed.

Lemma list_swap_lookup l i j k :
  (i < length l)%nat -> (j < length l)%nat ->
  list_swap l i j !! k = l !! transpose i j k.
Proof.
  intros Hi Hj. unfold list_swap, transpose.
  destruct (lookup_lt_is_Some_2 l i Hi) as [x Hx].
  destruct (lookup_lt_is_Some_2 l j Hj) as [y Hy].
  rewrite Hx, Hy, !list_lookup_insert, !length_insert.
  repeat case_decide; destruct_and?; subst; try congruence; try lia.
  all: exfalso; naive_solver lia.
Qed.

Lemma list_swap_Permutation l i j : list_swap l i j ≡ₚ l.
Proof.
  destruct (decide (i < length l)%nat) as [Hi|Hi].
  - destruct (decide (j < length l)%nat) as [Hj|Hj].
    + apply Permutation_inj. split; [apply list_swap_length|].
      exists (transpose i j). split; [apply transpose_inj|].
      intros k. by apply list_swap_lookup.
    + unfold list_swap. rewrite (lookup_ge_None_2 l j) by lia.
      by destruct (l !! i).
  - unfold list_swap. by rewrite (lookup_ge_None_2 l i) by lia.
Qed.

Lemma iter_swap_Some l (i j : Z) l' :
  iter_swap l i j = Some l' ->
  (0 <= i < Z.of_nat (length l)) /\ (0 <= j < Z.of_nat (length l))
  /\ l' = list_swap l (Z.to_nat i) (Z.to_nat j).
Proof.
  unfold iter_swap, list_swap. case_bool_decide as Hij; [|discriminate].
  destruct (l !! Z.to_nat i) as [x|] eqn:Hx; [|discriminate].
  destruct (l !! Z.to_nat j) as [y|] eqn:Hy; [|discriminate].
  intros [= <-].
  apply lookup_lt_Some in Hx. apply lookup_lt_Some in Hy.
  repeat split; lia.
Qed.

Lemma iter_swap_in_range l (i j : Z) :
  0 <= i < Z.of_nat (length l) -> 0 <= j < Z.of_nat (length l) ->
  iter_swap l i j = Some (list_swap l (Z.to_nat i) (Z.to_nat j)).
Proof.
  intros Hi Hj. unfold iter_swap, list_swap.
  rewrite bool_decide_eq_true_2 by lia.
  destruct (lookup_lt_is_Some_2 l (Z.to_nat i)) as [x ->]; [lia|].
  destruct (lookup_lt_is_Some_2 l (Z.to_nat j)) as [y ->]; [lia|].
  reflexivity.
Qed.

Lemma fisher_yates_length draw i l : length (fisher_yates draw i l) = length l.
Proof.
  revert l. induction i as [|i IH]; intros l; simpl; [reflexivity|].
  by rewrite IH, list_swap_length.
Qed.

Lemma fisher_yates_Permutation draw i l : fisher_yates draw i l ≡ₚ l.
Proof.
  revert l. induction i as [|i IH]; intros l; simpl; [reflexivity|].
  by rewrite IH, list_swap_Permutation.
Qed.

Lemma fisher_yates_ext draw draw' i l :
  (forall k, (1 <= k <= i)%nat -> draw k = draw' k) ->
  fisher_yates draw i l = fisher_yates draw' i l.
Proof.
  revert l. induction i as [|i IH]; intros l Hd; simpl; [reflexivity|].
  rewrite (Hd (S i)) by lia. apply IH. intros k Hk. apply Hd. lia.
Qed.

End Swap.

(** ** Shuffle *)

Lemma to_size_t_small (z : Z) : 0 <= z <= SIZE_MAX -> to_size_t z = z.
Proof. unfold to_size_t, SIZE_MAX. intros H. apply Z.mod_small. lia. Qed.

Lemma to_int_small (z : Z) : - 2 ^ 31 <= z <= INT_MAX -> to_int z = z.
Proof.
  unfold to_int, INT_MAX. intros H. rewrite Z.mod_small by lia. lia.
Qed.

(** For a loop counter in the range of [int], the draw is the remainder of
    the value of [rand] and lies in [0, i]. *)
Lemma rand_mod_small (r i : Z) :
  0 <= i < INT_MAX -> rand_mod r i = to_size_t r mod (i + 1).
Proof.
  intros Hi. unfold rand_mod.
  rewrite (to_size_t_small (i + 1)) by (unfold SIZE_MAX, INT_MAX in *; lia).
  apply to_int_small.
  pose proof (Z.mod_pos_bound (to_size_t r) (i + 1)). lia.
Qed.

Lemma rand_mod_range (r i : Z) : 0 <= i < INT_MAX -> 0 <= rand_mod r i <= i.
Proof.
  intros Hi. rewrite rand_mod_small by done.
  pose proof (Z.mod_pos_bound (to_size_t r) (i + 1)). lia.
Qed.

Lemma shuffle_draw_range (g : Rng) (top i : nat) :
  Z.of_nat i < INT_MAX -> (shuffle_draw g top i <= i)%nat.
Proof.
  intros Hi. unfold shuffle_draw.
  pose proof (rand_mod_range (rng_seq g (rng_pos g + (top - i))%nat) (Z.of_nat i)).
  lia.
Qed.

(** Started at an index inside the vector, the loop runs the Fisher-Yates
    swaps from that index down to 1, one call of [rand] per index. *)
Lemma shuffle_loop_spec (k : nat) :
  forall (fuel : nat) (cards : list CardPtr) (g : Rng),
    (k < length cards)%nat ->
    Z.of_nat (length cards) <= INT_MAX ->
    (k <= fuel)%nat ->
    shuffle_loop fuel (Z.of_nat k) cards g
    = Ok (fisher_yates (shuffle_draw g k) k cards, advance g k).
Proof.
  induction k as [|k IH]; intros fuel cards g Hk Hlen Hfuel.
  - destruct fuel; simpl; unfold advance; rewrite Nat.add_0_r; by destruct g.
  - destruct fuel as [|fuel]; [lia|].
    cbn [shuffle_loop].
    rewrite bool_decide_eq_true_2 by lia.
    cbn [rand].
    assert (HSM : INT_MAX < SIZE_MAX) by (unfold INT_MAX, SIZE_MAX; lia).
    rewrite (to_size_t_small (Z.of_nat (S k) + 1)) by lia.
    rewrite bool_decide_eq_false_2 by lia.
    pose proof (rand_mod_range (rng_seq g (rng_pos g)) (Z.of_nat (S k))) as Hj.
    rewrite iter_swap_in_range by lia.
    rewrite (to_size_t_small (Z.of_nat (S k) - 1)) by lia.
    replace (Z.of_nat (S k) - 1) with (Z.of_nat k) by lia.
    rewrite IH; [|rewrite list_swap_length; lia..|lia].
    rewrite Nat2Z.id. f_equal. f_equal.
    + cbn [fisher_yates].
      replace (shuffle_draw g (S k) (S k))
        with (Z.to_nat (rand_mod (rng_seq g (rng_pos g)) (Z.of_nat (S k)))).
      * apply fisher_yates_ext. intros i Hi. unfold shuffle_draw. cbn.
        do 3 f_equal. lia.
      * unfold shuffle_draw. by rewrite Nat.sub_diag, Nat.add_0_r.
    + unfold advance. cbn. f_equal. lia.
Qed.

(** Whatever the counter, a loop that finishes has permuted the vector. *)
Lemma shuffle_loop_Permutation (fuel : nat) :
  forall (i : Z) (cards : list CardPtr) (g : Rng) cards' g',
    shuffle_loop fuel i cards g = Ok (cards', g') -> cards' ≡ₚ cards.
Proof.
  induction fuel as [|fuel IH]; intros i cards g cards' g'; cbn [shuffle_loop].
  - case_bool_decide; [discriminate|]. by intros [= <- <-].
  - case_bool_decide; [|by intros [= <- <-]].
    cbn [rand]. case_bool_decide; [discriminate|].
    destruct (iter_swap cards i _) as [cards1|] eqn:Hswap; [|discriminate].
    intros Hloop. apply IH in Hloop. rewrite Hloop.
    apply iter_swap_Some in Hswap as (_ & _ & ->).
    apply list_swap_Permutation.
Qed.

(** On a deck with at least one card, [shuffle] returns: the live
    sequence is the Fisher-Yates result for the draws, the original
    sequence is untouched and [rand] was called [size() - 1] times. *)
Lemma shuffle_nonempty (d : Deck) (g : Rng) :
  (0 < num_cards d)%nat -> Z.of_nat (num_cards d) <= INT_MAX ->
  shuffle d g
  = Ok ({| m_cards := fisher_yates (shuffle_draw g (num_cards d - 1))
                                   (num_cards d - 1) (m_cards d);
           m_original_cards := m_original_cards d |},
        advance g (num_cards d - 1)).
Proof.
  unfold num_cards, shuffle. intros Hpos Hlen.
  assert (HSM : INT_MAX < SIZE_MAX) by (unfold INT_MAX, SIZE_MAX; lia).
  rewrite to_size_t_small by lia.
  replace (Z.of_nat (length (m_cards d)) - 1)
    with (Z.of_nat (length (m_cards d) - 1)) by lia.
  rewrite shuffle_loop_spec by lia. reflexivity.
Qed.

(** On a deck without cards the counter wraps to [SIZE_MAX], the loop is
    entered and [i + 1] wraps to zero. *)
Lemma shuffle_empty (d : Deck) (g : Rng) :
  m_cards d = [] -> shuffle d g = Fault ModuloByZero.
Proof. intros H. unfold shuffle. rewrite H. reflexivity. Qed.

Lemma shuffle_Ok_inv (d d' : Deck) (g g' : Rng) :
  shuffle d g = Ok (d', g') ->
  m_cards d' ≡ₚ m_cards d /\ m_original_cards d' = m_original_cards d.
Proof.
  unfold shuffle.
  destruct (shuffle_loop _ _ _ _) as [[cards g1]| |] eqn:Hloop; try discriminate.
  intros [= <- <-]. simpl. split; [|reflexivity].
  by apply shuffle_loop_Permutation in Hloop.
Qed.

(** Three cards, [rand] returning 7 then 4: index 2 draws 7 mod 3 = 1,
    index 1 draws 4 mod 2 = 0. *)
Example shuffle_three_cards :
  shuffle {| m_cards := [make_shared Club Ace; make_shared Club Two;
                         make_shared Club Three];
             m_original_cards := build_cards |}
          (srand (fun n => nth n [7; 4] 0))
  = Ok ({| m_cards := [make_shared Club Three; make_shared Club Ace;
                       make_shared Club Two];
           m_original_cards := build_cards |},
        {| rng_seq := fun n => nth n [7; 4] 0; rng_pos := 2 |}).
Proof. reflexivity. Qed.

Lemma shuffle_loop_fuel (fuel : nat) :
  forall (i : Z) (cards : list CardPtr) (g : Rng),
    i < Z.of_nat fuel -> shuffle_loop fuel i cards g <> OutOfFuel.
Proof.
  induction fuel as [|fuel IH]; intros i cards g Hi; cbn [shuffle_loop].
  - rewrite bool_decide_eq_false_2 by lia. discriminate.
  - case_bool_decide; [|discriminate].
    cbn [rand]. case_bool_decide; [discriminate|].
    destruct (iter_swap cards i _); [|discriminate].
    apply IH. unfold to_size_t.
    pose proof (Z.mod_le (i - 1) (2 ^ 64)). lia.
Qed.

(** The fuel handed to the loop by [shuffle] is never used up. *)
Lemma shuffle_never_out_of_fuel (d : Deck) (g : Rng) : shuffle d g <> OutOfFuel.
Proof.
  destruct (m_cards d) as [|c l] eqn:E.
  - by rewrite shuffle_empty.
  - unfold shuffle.
    pose proof (shuffle_loop_fuel (S (length (m_cards d)))
      (to_size_t (Z.of_nat (length (m_cards d)) - 1)) (m_cards d) g) as Hfuel.
    destruct (shuffle_loop _ _ _ _) as [[cards g1]| |]; try discriminate.
    exfalso. apply Hfuel; [|reflexivity].
    rewrite E. unfold to_size_t. simpl length.
    pose proof (Z.mod_le (Z.of_nat (S (length l)) - 1) (2 ^ 64)). lia.
Qed.

(** ** The invariant along sequences of calls *)

Lemma deck_inv_new (seeded : nat -> Z) : deck_inv (fst (Deck_new seeded)).
Proof.
  unfold deck_inv, num_cards, Deck_new. cbn [fst m_cards m_original_cards].
  split; [reflexivity|]. split; [exact build_cards_NoDup|].
  split; [reflexivity|]. rewrite build_cards_length. lia.
Qed.

Lemma deck_inv_reset (d : Deck) : deck_inv d -> deck_inv (reset d).
Proof.
  intros (Horig & _). unfold deck_inv, num_cards, reset.
  cbn [m_cards m_original_cards]. rewrite Horig. split; [reflexivity|]. split; [exact build_cards_NoDup|].
  split; [reflexivity|]. rewrite build_cards_length. lia.
Qed.

Lemma deck_inv_deal_card (d : Deck) : deck_inv d -> deck_inv (snd (deal_card d)).
Proof.
  intros Hinv.
  destruct (list_snoc_cases (m_cards d)) as [E | (l & c & E)].
  - by rewrite (deal_card_empty d E).
  - rewrite (deal_card_snoc d l c E).
    destruct Hinv as (Horig & Hnd & Hsub & Hlen).
    unfold deck_inv, num_cards in *. simpl. rewrite E in Hnd, Hsub, Hlen.
    split; [exact Horig|]. split; [|split].
    + by apply NoDup_app in Hnd as (? & _).
    + intros x Hx. apply Hsub, elem_of_app. by left.
    + rewrite length_app in Hlen. lia.
Qed.

Lemma deck_inv_shuffle (d d' : Deck) (g g' : Rng) :
  deck_inv d -> shuffle d g = Ok (d', g') -> deck_inv d'.
Proof.
  intros (Horig & Hnd & Hsub & Hlen) [Hperm Ho]%shuffle_Ok_inv.
  unfold deck_inv, num_cards in *. rewrite Ho, Hperm. auto.
Qed.

Lemma deck_inv_step (w w' : World) (o : Op) :
  deck_inv (fst w) -> step w o = Ok w' -> deck_inv (fst w').
Proof.
  destruct w as [d g], w' as [d' g']. destruct o; simpl.
  - apply deck_inv_shuffle.
  - intros Hinv [= <- <-]. by apply deck_inv_deal_card.
  - intros Hinv [= <- <-]. by apply deck_inv_reset.
Qed.

Lemma deck_inv_run (ops : list Op) :
  forall w w' : World,
    deck_inv (fst w) -> run ops w = Ok w' -> deck_inv (fst w').
Proof.
  induction ops as [|o ops IH]; intros w w' Hinv; simpl.
  - by intros [= <-].
  - destruct (step w o) as [w1| |] eqn:Hstep; try discriminate.
    apply IH. by apply (deck_inv_step w w1 o).
Qed.

Lemma reachable_inv (d : Deck) : reachable d -> deck_inv d.
Proof.
  intros (seeded & ops & g & Hrun).
  apply (deck_inv_run ops _ _ (deck_inv_new seeded) Hrun).
Qed.

Lemma deck_inv_not_null (d : Deck) : deck_inv d -> nullptr ∉ m_cards d.
Proof.
  intros (Horig & _ & Hsub & _) Hnull. apply Hsub in Hnull.
  rewrite Horig in Hnull. by apply build_cards_not_null.
Qed.

(** A sequence of calls returns exactly when it never calls [shuffle] on
    a deck without cards. *)
Lemma run_returns_iff (ops : list Op) :
  forall w : World,
    deck_inv (fst w) ->
    is_Ok (run ops w) <-> calls_defined (num_cards (fst w)) ops = true.
Proof.
  induction ops as [|o ops IH]; intros [d g] Hinv; simpl.
  - split; [reflexivity|]. intros _. eexists. reflexivity.
  - destruct o; simpl.
    + destruct (decide (0 < num_cards d)%nat) as [Hpos|Hzero].
      * assert (Hlen : Z.of_nat (num_cards d) <= INT_MAX).
        { destruct Hinv as (_ & _ & _ & Hlen). simpl in Hlen.
          unfold INT_MAX. lia. }
        pose proof (shuffle_nonempty d g Hpos Hlen) as Hsh.
        rewrite Hsh, bool_decide_eq_true_2 by done. simpl.
        rewrite IH by (exact (deck_inv_shuffle _ _ _ _ Hinv Hsh)).
        unfold num_cards. simpl. by rewrite fisher_yates_length.
      * assert (Hnil : m_cards d = []).
        { unfold num_cards in Hzero.
          destruct (m_cards d); [done|simpl in Hzero; lia]. }
        rewrite (shuffle_empty d g Hnil), bool_decide_eq_false_2 by done.
        simpl. split; [intros [w Hw]|]; discriminate.
    + rewrite IH by (by apply deck_inv_deal_card).
      simpl. by rewrite deal_card_num_cards.
    + rewrite IH by (by apply deck_inv_reset).
      destruct Hinv as (Horig & _). simpl in Horig.
      unfold num_cards, reset. simpl. by rewrite Horig.
Qed.

Lemma run_original (ops : list Op) :
  forall w w' : World,
    run ops w = Ok w' -> m_original_cards (fst w') = m_original_cards (fst w).
Proof.
  induction ops as [|o ops IH]; intros w w'; simpl.
  - by intros [= <-].
  - destruct (step w o) as [w1| |] eqn:Hstep; try discriminate.
    intros Hrun. rewrite (IH _ _ Hrun). clear Hrun IH.
    destruct w as [d g], w1 as [d1 g1]. destruct o; simpl in *.
    + by apply shuffle_Ok_inv in Hstep as [_ ?].
    + injection Hstep as <- <-. apply deal_card_original.
    + by injection Hstep as <- <-.
Qed.

(** C8: after every sequence of [shuffle], [deal_card] and [reset] calls
    on a newly constructed deck, the live sequence has no duplicates, is
    a subset of the original sequence and has at most 52 cards, and the
    original sequence is the one built by the constructor.  The sequence
    returns whenever it never calls [shuffle] on a deck without cards;
    one that does has no state afterwards. *)
Theorem live_within_original (seeded : nat -> Z) (ops : list Op) :
  (calls_defined 52 ops = true -> is_Ok (run ops (Deck_new seeded)))
  /\ (forall (d : Deck) (g : Rng),
        run ops (Deck_new seeded) = Ok (d, g) ->
        NoDup (m_cards d)
        /\ m_cards d ⊆ m_original_cards d
        /\ (num_cards d <= 52)%nat
        /\ m_original_cards d = m_original_cards (fst (Deck_new seeded))).
Proof.
  split.
  - intros Hdef. by apply run_returns_iff; [apply deck_inv_new|].
  - intros d g Hrun.
    pose proof (deck_inv_run ops _ _ (deck_inv_new seeded) Hrun)
      as (_ & Hnd & Hsub & Hlen).
    apply run_original in Hrun. auto.
Qed.

Lemma live_within_original_witness :
  is_Ok (run example_ops (Deck_new example_seq))
  /\ NoDup (m_cards (fst example_world))
  /\ m_cards (fst example_world) ⊆ m_original_cards (fst example_world)
  /\ (num_cards (fst example_world) <= 52)%nat
  /\ m_original_cards (fst example_world)
     = m_original_cards (fst (Deck_new example_seq)).
Proof.
  pose proof (live_within_original example_seq example_ops) as [H1 H2].
  split.
  - apply H1. vm_compute. reflexivity.
  - apply (H2 (fst example_world) (snd example_world)).
    vm_compute. reflexivity.
Defined.

Lemma deal_card_fst_elem (d : Deck) :
  m_cards d <> [] -> fst (deal_card d) ∈ m_cards d.
Proof.
  intros Hne. destruct (list_snoc_cases (m_cards d)) as [E | (l & c & E)].
  - contradiction.
  - rewrite (deal_card_snoc d l c E), E. simpl. apply elem_of_app. right.
    by apply list_elem_of_singleton.
Qed.

(** C5: on a deck whose live sequence is empty [deal_card] returns the
    null handle and leaves both sequences as they were; on a reachable
    deck it returns the null handle exactly when the live sequence is
    empty.  [deal_card] has no failing path at all. *)
Theorem deal_card_absent (d : Deck) :
  (m_cards d = [] -> deal_card d = (nullptr, d))
  /\ (reachable d -> (fst (deal_card d) = nullptr <-> m_cards d = [])).
Proof.
  split; [apply deal_card_empty|].
  intros Hinv%reachable_inv%deck_inv_not_null. split.
  - intros Hnull. destruct (m_cards d) as [|c l] eqn:E; [reflexivity|].
    exfalso. apply Hinv. rewrite <- E, <- Hnull.
    apply deal_card_fst_elem. by rewrite E.
  - intros E. by rewrite (deal_card_empty d E).
Qed.

Lemma deal_card_absent_witness :
  let d := snd (deal_n 52 (fst (Deck_new example_seq))) in
  deal_card d = (nullptr, d)
  /\ (fst (deal_card d) = nullptr <-> m_cards d = []).
Proof.
  pose proof (deal_card_absent (snd (deal_n 52 (fst (Deck_new example_seq)))))
    as [H1 H2].
  split.
  - apply H1. vm_compute. reflexivity.
  - apply H2. exists example_seq, (replicate 52 op_deal_card), (srand example_seq).
    vm_compute. reflexivity.
Defined.

(** ** Reset *)

Lemma deal_n_all (d : Deck) :
  deal_n (length (m_cards d)) d
  = (reverse (m_cards d), {| m_cards := []; m_original_cards := m_original_cards d |}).
Proof.
  rewrite deal_n_spec, Nat.sub_diag. simpl.
  rewrite take_ge by (by rewrite length_reverse).
  by rewrite app_nil_r.
Qed.

(** C2, as the code has it: after every sequence of calls that returns
    (and it returns whenever it never calls [shuffle] on a deck without
    cards), [reset] brings [num_cards] back to 52 and the next 52 calls
    of [deal_card] return the constructed cards in the reverse of the
    construction order, the King of Spades first and the Ace of Clubs
    last, which empties the deck. *)
Theorem reset_then_deal_reverse_order (seeded : nat -> Z) (ops : list Op) :
  (calls_defined 52 ops = true -> is_Ok (run ops (Deck_new seeded)))
  /\ (forall (d : Deck) (g : Rng),
        run ops (Deck_new seeded) = Ok (d, g) ->
        num_cards (reset d) = 52%nat
        /\ deal_n 52 (reset d)
           = (reverse build_cards,
              {| m_cards := []; m_original_cards := build_cards |})
        /\ head (fst (deal_n 52 (reset d))) = Some (make_shared Spade King)
        /\ last (fst (deal_n 52 (reset d))) = Some (make_shared Club Ace)).
Proof.
  split.
  - intros Hdef. by apply run_returns_iff; [apply deck_inv_new|].
  - intros d g Hrun. apply run_original in Hrun. simpl in Hrun.
    assert (Hd : reset d
                 = {| m_cards := build_cards; m_original_cards := build_cards |}).
    { unfold reset. by rewrite Hrun. }
    rewrite Hd. split; [reflexivity|].
    assert (Hdeal : deal_n 52
              {| m_cards := build_cards; m_original_cards := build_cards |}
            = (reverse build_cards,
               {| m_cards := []; m_original_cards := build_cards |})).
    { exact (deal_n_all
               {| m_cards := build_cards; m_original_cards := build_cards |}). }
    rewrite Hdeal. repeat split.
Qed.

Lemma reset_then_deal_reverse_order_witness :
  is_Ok (run example_ops (Deck_new example_seq))
  /\ num_cards (reset (fst example_world)) = 52%nat
  /\ deal_n 52 (reset (fst example_world))
     = (reverse build_cards, {| m_cards := []; m_original_cards := build_cards |})
  /\ head (fst (deal_n 52 (reset (fst example_world))))
     = Some (make_shared Spade King)
  /\ last (fst (deal_n 52 (reset (fst example_world))))
     = Some (make_shared Club Ace).
Proof.
  pose proof (reset_then_deal_reverse_order example_seq example_ops) as [H1 H2].
  split.
  - apply H1. vm_compute. reflexivity.
  - apply (H2 (fst example_world) (snd example_world)).
    vm_compute. reflexivity.
Defined.

(** The claim C2 as written fails on a deck that was only constructed:
    after [reset] the first card dealt is the King of Spades, while the
    first card of the construction order is the Ace of Clubs; the 52
    cards dealt are not the construction order. *)
Lemma reset_then_deal_not_construction_order :
  run [] (Deck_new example_seq) = Ok (Deck_new example_seq)
  /\ head (fst (deal_n 52 (reset (fst (Deck_new example_seq)))))
     = Some (make_shared Spade King)
  /\ head build_cards = Some (make_shared Club Ace)
  /\ fst (deal_n 52 (reset (fst (Deck_new example_seq)))) <> build_cards.
Proof.
  split; [reflexivity|]. split; [reflexivity|]. split; [reflexivity|].
  intros H. apply (f_equal head) in H. vm_compute in H. discriminate H.
Qed.

(** ** Shuffle keeps the cards *)

(** C3: on every deck state, once [shuffle] has returned, the live
    sequence is a permutation of what it was and [num_cards] is the
    same; and [shuffle] does return on every deck that holds at least one
    card.  (On a deck without cards the call does
    not return, so there is no state after it.) *)
Theorem shuffle_keeps_cards (d : Deck) (g : Rng) :
  ((0 < num_cards d)%nat -> Z.of_nat (num_cards d) <= INT_MAX ->
     is_Ok (shuffle d g))
  /\ (forall (d' : Deck) (g' : Rng),
        shuffle d g = Ok (d', g') ->
        m_cards d' ≡ₚ m_cards d /\ num_cards d' = num_cards d).
Proof.
  split.
  - intros Hpos Hlen. rewrite shuffle_nonempty by done. eexists. reflexivity.
  - intros d' g' [Hperm _]%shuffle_Ok_inv. split; [exact Hperm|].
    unfold num_cards. by rewrite Hperm.
Qed.

Lemma shuffle_keeps_cards_witness :
  is_Ok (shuffle (fst (Deck_new example_seq)) (snd (Deck_new example_seq)))
  /\ m_cards (fst example_shuffled) ≡ₚ m_cards (fst (Deck_new example_seq))
  /\ num_cards (fst example_shuffled) = num_cards (fst (Deck_new example_seq)).
Proof.
  pose proof (shuffle_keeps_cards (fst (Deck_new example_seq))
                (snd (Deck_new example_seq))) as [H1 H2].
  split.
  - apply H1; vm_compute; [lia | discriminate].
  - apply (H2 (fst example_shuffled) (snd example_shuffled)).
    vm_compute. reflexivity.
Defined.

(** ** Dealing a whole deck *)

Lemma deal_n_inv (n : nat) (d : Deck) : deck_inv d -> deck_inv (snd (deal_n n d)).
Proof.
  revert d. induction n as [|n IH]; intros d Hinv; simpl; [done|].
  pose proof (deck_inv_deal_card d Hinv) as Hinv'.
  destruct (deal_card d) as [c d']. simpl in Hinv'.
  specialize (IH d' Hinv'). by destruct (deal_n n d').
Qed.

(** C4: on a newly constructed deck 52 calls of [deal_card] return 52
    handles, all different and none null; the 53rd call returns the null
    handle and changes nothing; after [k] calls [num_cards] is [52 - k],
    and 0 from the 52nd call on; each of the first 52 calls returns a
    non-null handle and lowers [num_cards] by exactly one. *)
Theorem deal_whole_deck (seeded : nat -> Z) :
  let d0 := fst (Deck_new seeded) in
  let dealt := fst (deal_n 52 d0) in
  let d52 := snd (deal_n 52 d0) in
  length dealt = 52%nat
  /\ NoDup dealt
  /\ (nullptr ∉ dealt)
  /\ deal_card d52 = (nullptr, d52)
  /\ (forall k : nat, num_cards (snd (deal_n k d0)) = (52 - k)%nat)
  /\ (forall k : nat, (k < 52)%nat ->
        let dk := snd (deal_n k d0) in
        fst (deal_card dk) <> nullptr
        /\ S (num_cards (snd (deal_card dk))) = num_cards dk).
Proof.
  intros d0 dealt d52.
  assert (Hcount : forall k : nat, num_cards (snd (deal_n k d0)) = (52 - k)%nat).
  { intros k. rewrite deal_n_spec. unfold num_cards. simpl.
    rewrite length_take, build_cards_length. lia. }
  assert (Hdealt : dealt = reverse build_cards).
  { unfold dealt, d0.
    pose proof (deal_n_all (fst (Deck_new seeded))) as Hall.
    change (length (m_cards (fst (Deck_new seeded)))) with 52%nat in Hall.
    by rewrite Hall. }
  split; [|split; [|split; [|split; [|split]]]].
  - by rewrite Hdealt, length_reverse.
  - rewrite Hdealt, reverse_Permutation. exact build_cards_NoDup.
  - rewrite Hdealt, elem_of_reverse. exact build_cards_not_null.
  - reflexivity.
  - exact Hcount.
  - intros k Hk dk.
    pose proof (deal_n_inv k d0 (deck_inv_new seeded)) as Hinv.
    fold dk in Hinv.
    assert (Hne : m_cards dk <> []).
    { intros E. specialize (Hcount k). fold dk in Hcount.
      unfold num_cards in Hcount. rewrite E in Hcount. simpl in Hcount. lia. }
    split.
    + intros Hnull. apply (deck_inv_not_null dk Hinv).
      rewrite <- Hnull. by apply deal_card_fst_elem.
    + rewrite deal_card_num_cards. unfold num_cards.
      destruct (m_cards dk); [contradiction|]. reflexivity.
Qed.

Lemma deal_whole_deck_witness :
  fst (deal_card (snd (deal_n 51 (fst (Deck_new example_seq))))) <> nullptr
  /\ S (num_cards (snd (deal_card (snd (deal_n 51 (fst (Deck_new example_seq)))))))
     = num_cards (snd (deal_n 51 (fst (Deck_new example_seq)))).
Proof.
  pose proof (deal_whole_deck example_seq) as (_ & _ & _ & _ & _ & H).
  apply (H 51%nat). lia.
Defined.

(** ** Shuffle on an exhausted deck *)

(** C6, at the input where the code goes wrong: a new deck after 52
    calls of [deal_card] is a reachable state whose live sequence is
    empty, and [shuffle] on it takes the remainder of [rand()] by zero:
    [size() - 1] wraps to [SIZE_MAX], the loop is entered, and [i + 1]
    wraps to 0. *)
Theorem shuffle_exhausted_deck (seeded : nat -> Z) (g : Rng) :
  let d52 := snd (deal_n 52 (fst (Deck_new seeded))) in
  reachable d52
  /\ m_cards d52 = []
  /\ to_size_t (Z.of_nat (num_cards d52) - 1) = SIZE_MAX
  /\ to_size_t (SIZE_MAX + 1) = 0
  /\ shuffle d52 g = Fault ModuloByZero.
Proof.
  intros d52. split; [|split; [|split; [|split]]]; try reflexivity.
  exists seeded, (replicate 52 op_deal_card), (srand seeded).
  vm_compute. reflexivity.
Qed.

(** ** How the draw is distributed *)

Lemma div_mod_succ (n m : Z) :
  0 <= n -> 0 < m ->
  (n mod m + 1 < m /\ (n + 1) / m = n / m /\ (n + 1) mod m = n mod m + 1)
  \/ (n mod m + 1 = m /\ (n + 1) / m = n / m + 1 /\ (n + 1) mod m = 0).
Proof.
  intros Hn Hm.
  pose proof (Z.div_mod n m) as Hdm.
  pose proof (Z.mod_pos_bound n m Hm) as Hr.
  destruct (decide (n mod m + 1 < m)) as [Hlt|Hge].
  - left. split; [exact Hlt|].
    split; symmetry.
    + apply (Z.div_unique _ _ _ (n mod m + 1)); lia.
    + apply (Z.mod_unique _ _ (n / m)); lia.
  - right. split; [lia|].
    split; symmetry.
    + apply (Z.div_unique _ _ _ 0); lia.
    + apply (Z.mod_unique _ _ (n / m + 1)); lia.
Qed.

(** Among the first [n] values of [rand], those that make index [i] draw
    [j]. *)
Lemma draw_count_upto (i j : Z) (n : nat) :
  0 <= i < INT_MAX -> 0 <= j <= i -> Z.of_nat n <= SIZE_MAX + 1 ->
  Z.of_nat (length (filter (fun r => rand_mod r i = j) (seqZ 0 (Z.of_nat n))))
  = Z.of_nat n / (i + 1)
    + (if bool_decide (j < Z.of_nat n mod (i + 1)) then 1 else 0).
Proof.
  intros Hi Hj. induction n as [|n IH]; intros Hn.
  - rewrite Z.div_0_l, Z.mod_0_l by lia.
    rewrite bool_decide_eq_false_2 by lia. reflexivity.
  - rewrite seqZ_S, filter_app, length_app, Nat2Z.inj_add, IH by lia.
    rewrite filter_cons, filter_nil, Z.add_0_l.
    rewrite rand_mod_small, to_size_t_small by lia.
    rewrite Nat2Z.inj_succ. unfold Z.succ.
    destruct (div_mod_succ (Z.of_nat n) (i + 1)) as
      [(Hlt & -> & ->) | (Heq & -> & ->)]; try lia;
      repeat (case_decide || case_bool_decide); simpl; lia.
Qed.

(** The number of values of [rand] for which index [i] draws [j]. *)
Lemma draw_count_closed (RAND_MAX i j : Z) :
  0 <= RAND_MAX <= INT_MAX -> 0 <= i < INT_MAX -> 0 <= j <= i ->
  Z.of_nat (draw_count RAND_MAX i j)
  = (RAND_MAX + 1) / (i + 1)
    + (if bool_decide (j < (RAND_MAX + 1) mod (i + 1)) then 1 else 0).
Proof.
  intros HR Hi Hj. unfold draw_count.
  pose proof (draw_count_upto i j (Z.to_nat (RAND_MAX + 1)) Hi Hj) as H.
  rewrite Z2Nat.id in H by lia. apply H.
  unfold INT_MAX, SIZE_MAX in *. lia.
Qed.

(** Two draws never differ by more than one value of [rand]. *)
Lemma draw_count_near_uniform (RAND_MAX i j j' : Z) :
  0 <= RAND_MAX <= INT_MAX -> 0 <= i < INT_MAX ->
  0 <= j <= i -> 0 <= j' <= i ->
  Z.of_nat (draw_count RAND_MAX i j) <= Z.of_nat (draw_count RAND_MAX i j') + 1.
Proof.
  intros HR Hi Hj Hj'. rewrite !draw_count_closed by done.
  repeat case_bool_decide; lia.
Qed.

(** The draw at index [i] is uniform exactly when [i + 1] divides the
    number of values of [rand]. *)
Lemma uniform_draw_iff (RAND_MAX i : Z) :
  0 <= RAND_MAX <= INT_MAX -> 0 <= i < INT_MAX ->
  uniform_draw RAND_MAX i <-> (i + 1 | RAND_MAX + 1).
Proof.
  intros HR Hi. rewrite <- Z.mod_divide by lia. split.
  - intros Hu. specialize (Hu 0 i ltac:(lia) ltac:(lia)).
    apply (f_equal Z.of_nat) in Hu. rewrite !draw_count_closed in Hu by lia.
    pose proof (Z.mod_pos_bound (RAND_MAX + 1) (i + 1)).
    repeat case_bool_decide; lia.
  - intros Hmod j j' Hj Hj'. apply Nat2Z.inj.
    rewrite !draw_count_closed, Hmod by lia.
    by rewrite !bool_decide_eq_false_2 by lia.
Qed.

(** Whatever [RAND_MAX] an [int] can hold, the 51 draws of a full deck
    are not all uniform: [RAND_MAX + 1] would have to be a multiple of
    32, 27, 25, 7, 11, 13, 17 and 19. *)
Lemma full_deck_draws_not_all_uniform (RAND_MAX : Z) :
  0 <= RAND_MAX <= INT_MAX ->
  ~ (forall i : Z, 1 <= i <= 51 -> uniform_draw RAND_MAX i).
Proof.
  intros HR Hall.
  assert (Hdiv : forall i : Z, 1 <= i <= 51 -> (i + 1 | RAND_MAX + 1)).
  { intros i Hi. apply uniform_draw_iff; [done|unfold INT_MAX; lia|by apply Hall]. }
  assert (Hval : Z.lcm 32 (Z.lcm 27 (Z.lcm 25 (Z.lcm 7 (Z.lcm 11
                    (Z.lcm 13 (Z.lcm 17 19)))))) = 6983776800)
    by (vm_compute; reflexivity).
  assert (HL : (6983776800 | RAND_MAX + 1)).
  { rewrite <- Hval. repeat apply Z.lcm_least.
    - apply (Hdiv 31); lia.
    - apply (Hdiv 26); lia.
    - apply (Hdiv 24); lia.
    - apply (Hdiv 6); lia.
    - apply (Hdiv 10); lia.
    - apply (Hdiv 12); lia.
    - apply (Hdiv 16); lia.
    - apply (Hdiv 18); lia. }
  apply Z.divide_pos_le in HL; [|lia].
  unfold INT_MAX in HR. lia.
Qed.

(** ** Shuffle is the Fisher-Yates algorithm *)

(** C7, as the code has it: on a deck with at least one card [shuffle]
    returns, and the live sequence it leaves is the Fisher-Yates result:
    for the index [i] from [size() - 1] down to 1 the elements at [i] and
    at the draw [j] are swapped, where [j] is the remainder of the value
    of [rand] by [i + 1] and lies in [0, i]; nothing else changes (the
    original sequence is the same and [rand] was called once per index).
    The draw at index [i] is uniform over [0, i] exactly when [i + 1]
    divides [RAND_MAX + 1]; in every case two values of [j] are drawn by
    numbers of values of [rand] that differ by at most one. *)
Theorem shuffle_fisher_yates (RAND_MAX : Z) (d : Deck) (g : Rng) :
  (0 < num_cards d)%nat ->
  Z.of_nat (num_cards d) <= INT_MAX ->
  0 <= RAND_MAX <= INT_MAX ->
  let top := (num_cards d - 1)%nat in
  shuffle d g
  = Ok ({| m_cards := fisher_yates (shuffle_draw g top) top (m_cards d);
           m_original_cards := m_original_cards d |},
        advance g top)
  /\ (forall i : nat, (1 <= i <= top)%nat ->
        (shuffle_draw g top i <= i)%nat
        /\ Z.of_nat (shuffle_draw g top i)
           = to_size_t (rng_seq g (rng_pos g + (top - i))%nat)
               mod (Z.of_nat i + 1))
  /\ (forall i : nat, (1 <= i <= top)%nat ->
        (uniform_draw RAND_MAX (Z.of_nat i) <-> (Z.of_nat i + 1 | RAND_MAX + 1))
        /\ forall j j' : Z, 0 <= j <= Z.of_nat i -> 0 <= j' <= Z.of_nat i ->
             Z.of_nat (draw_count RAND_MAX (Z.of_nat i) j)
             <= Z.of_nat (draw_count RAND_MAX (Z.of_nat i) j') + 1).
Proof.
  intros Hpos Hlen HR top.
  split; [by apply shuffle_nonempty|]. split.
  - intros i Hi. split; [apply shuffle_draw_range; lia|].
    unfold shuffle_draw. rewrite rand_mod_small by lia.
    rewrite Z2Nat.id; [reflexivity|].
    apply Z.mod_pos_bound. lia.
  - intros i Hi. split.
    + apply uniform_draw_iff; [done|lia].
    + intros j j' Hj Hj'. apply draw_count_near_uniform; [done|lia|done..].
Qed.

Lemma shuffle_fisher_yates_witness :
  let d := fst (Deck_new example_seq) in
  let g := snd (Deck_new example_seq) in
  shuffle d g
  = Ok ({| m_cards := fisher_yates (shuffle_draw g 51) 51 (m_cards d);
           m_original_cards := m_original_cards d |},
        advance g 51).
Proof.
  intros d g.
  refine (proj1 (shuffle_fisher_yates 2147483647 d g _ _ _)).
  - vm_compute. lia.
  - vm_compute. discriminate.
  - vm_compute. split; discriminate.
Defined.

(** The claim C7 as written fails in two places.  With the [RAND_MAX] of
    the GNU C library, the draw at index 2 of any deck of three or more
    cards is not uniform: 715827883 values of [rand] draw 0 and 715827882
    draw 2.  And on a deck without cards, where the loop of the claim has
    no index to visit, [shuffle] does not return. *)
Lemma shuffle_not_uniform_fisher_yates :
  (1 <= 2 <= num_cards (fst (Deck_new example_seq)) - 1)%nat
  /\ Z.of_nat (draw_count 2147483647 2 0) = 715827883
  /\ Z.of_nat (draw_count 2147483647 2 2) = 715827882
  /\ ~ uniform_draw 2147483647 2
  /\ (forall draw, fisher_yates draw (0 - 1) (@nil CardPtr) = [])
  /\ shuffle {| m_cards := []; m_original_cards := build_cards |}
             (srand example_seq) = Fault ModuloByZero.
Proof.
  assert (HR : 0 <= 2147483647 <= INT_MAX) by (unfold INT_MAX; lia).
  assert (Hi : 0 <= 2 < INT_MAX) by (unfold INT_MAX; lia).
  split; [vm_compute; lia|].
  split; [by rewrite draw_count_closed by lia|].
  split; [by rewrite draw_count_closed by lia|].
  split; [|split; reflexivity].
  rewrite uniform_draw_iff by done. intros [k Hk]. lia.
Qed.

(** * Further properties *)

(** ** Categories of the statistical test *)

Lemma int_of_fits (z : Z) : - 2 ^ 31 <= z <= INT_MAX -> int_of z = Done z.
Proof. intros H. unfold int_of. by rewrite bool_decide_eq_true_2. Qed.

Lemma int_of_Done (z z' : Z) :
  int_of z = Done z' -> z' = z /\ - 2 ^ 31 <= z <= INT_MAX.
Proof. unfold int_of. case_bool_decide; [|discriminate]. by intros [= <-]. Qed.

(** The index of a card in the construction order. *)
Lemma card_index_range (s : Suit) (v : Value) :
  0 <= 13 * Suit_to_int s + (Value_to_int v - 1) < 52.
Proof. destruct s, v; simpl; lia. Qed.

Lemma get_category_value (s : Suit) (v : Value) (position : Z) :
  get_category s v position
  = int_of (52 * (13 * Suit_to_int s + (Value_to_int v - 1)) + position).
Proof.
  unfold get_category. destruct s, v; cbn [attempt_bind]; reflexivity.
Qed.

Lemma build_cards_index (k : nat) (s : Suit) (v : Value) :
  build_cards !! k = Some (make_shared s v) ->
  Z.of_nat k = 13 * Suit_to_int s + (Value_to_int v - 1).
Proof.
  intros Hk. pose proof (build_cards_lookup s v) as Hsv.
  pose proof (card_index_range s v).
  pose proof (NoDup_lookup _ _ _ _ build_cards_NoDup Hk Hsv). lia.
Qed.

(** X1: for positions 0 to 51 [get_category] numbers the pairs of a card
    and a position by 0 to 2703 without gaps or repetitions: the result
    is 52 times the card's index in the construction order plus the
    position, so the quotient by 52 gives the card back and the
    remainder the position. *)
Theorem get_category_bijection :
  (forall (s : Suit) (v : Value) (p : Z),
      0 <= p < 52 ->
      exists c : Z,
        get_category s v p = Done c
        /\ 0 <= c < 2704
        /\ c mod 52 = p
        /\ build_cards !! Z.to_nat (c / 52) = Some (make_shared s v))
  /\ (forall (s s' : Suit) (v v' : Value) (p p' : Z),
        0 <= p < 52 -> 0 <= p' < 52 ->
        get_category s v p = get_category s' v' p' ->
        s = s' /\ v = v' /\ p = p')
  /\ (forall c : Z,
        0 <= c < 2704 ->
        exists (s : Suit) (v : Value) (p : Z),
          0 <= p < 52 /\ get_category s v p = Done c).
Proof.
  assert (Hfwd : forall s v p, 0 <= p < 52 ->
    get_category s v p
    = Done (52 * (13 * Suit_to_int s + (Value_to_int v - 1)) + p)).
  { intros s v p Hp. rewrite get_category_value. apply int_of_fits.
    pose proof (card_index_range s v). unfold INT_MAX. lia. }
  split; [|split].
  - intros s v p Hp. eexists. split; [by apply Hfwd|].
    pose proof (card_index_range s v) as Hk.
    set (k := 13 * Suit_to_int s + (Value_to_int v - 1)) in *.
    split; [lia|].
    rewrite Z.mul_comm, Z.add_comm, Z.mod_add, Z.div_add, Z.mod_small,
      Z.div_small by lia.
    split; [reflexivity|]. apply build_cards_lookup.
  - intros s s' v v' p p' Hp Hp'. rewrite !Hfwd by done. intros [= Heq].
    pose proof (card_index_range s v). pose proof (card_index_range s' v').
    assert (Hk : 13 * Suit_to_int s + (Value_to_int v - 1)
                 = 13 * Suit_to_int s' + (Value_to_int v' - 1)) by lia.
    assert (Hv : 1 <= Value_to_int v <= 13) by (destruct v; simpl; lia).
    assert (Hv' : 1 <= Value_to_int v' <= 13) by (destruct v'; simpl; lia).
    split; [|split; [|lia]].
    + apply Suit_to_int_inj. lia.
    + apply Value_to_int_inj. lia.
  - intros c Hc.
    assert (Hk : (Z.to_nat (c / 52) < length build_cards)%nat).
    { rewrite build_cards_length.
      pose proof (Z.div_lt_upper_bound c 52 52). 
      pose proof (Z.div_pos c 52). lia. }
    apply lookup_lt_is_Some_2 in Hk as [card Hcard].
    assert (Hin : card ∈ build_cards) by (by eapply list_elem_of_lookup_2).
    apply build_cards_elem in Hin as (s & v & ->).
    apply build_cards_index in Hcard.
    exists s, v, (c mod 52).
    pose proof (Z.mod_pos_bound c 52). split; [lia|].
    rewrite Hfwd by lia. f_equal.
    rewrite <- Hcard, Z2Nat.id by (apply Z.div_pos; lia).
    pose proof (Z.div_mod c 52). lia.
Qed.

Lemma get_category_bijection_witness :
  exists c : Z,
    get_category Heart Queen 7 = Done c
    /\ 0 <= c < 2704
    /\ c mod 52 = 7
    /\ build_cards !! Z.to_nat (c / 52) = Some (make_shared Heart Queen).
Proof.
  apply (proj1 get_category_bijection Heart Queen 7). lia.
Defined.

(** ** The histogram of ChiSquaredTest *)

Lemma occurrences_cons (c c' : Z) (l : list Z) :
  occurrences c (c' :: l) = (if decide (c' = c) then 1 else 0) + occurrences c l.
Proof.
  unfold occurrences. rewrite filter_cons. case_decide; simpl length; lia.
Qed.

Lemma occurrences_nonneg (c : Z) (l : list Z) : 0 <= occurrences c l.
Proof. unfold occurrences. lia. Qed.

Lemma occurrences_app (c : Z) (l1 l2 : list Z) :
  occurrences c (l1 ++ l2) = occurrences c l1 + occurrences c l2.
Proof. unfold occurrences. rewrite filter_app, length_app. lia. Qed.

Lemma total_insert (l : list Z) (i : nat) (x y : Z) :
  l !! i = Some x -> total (<[i := y]> l) = total l - x + y.
Proof.
  revert i. induction l as [|a l IH]; intros [|i] H; simplify_eq/=.
  - lia.
  - rewrite (IH i H). lia.
Qed.

Section Histogram.
Context {double chi_squared_distribution : Type}.
Implicit Types t : ChiSquaredTest double chi_squared_distribution.

(** A category is accepted when it is an index of the histogram. *)
Lemma add_observation_accepts t (category count : Z) :
  m_observed t !! Z.to_nat category = Some count ->
  0 <= category <= INT_MAX ->
  - 2 ^ 31 <= count + 1 <= INT_MAX ->
  add_observation t category
  = Done {| m_dofs := m_dofs t;
            m_observed := <[Z.to_nat category := count + 1]> (m_observed t);
            m_expected := m_expected t;
            m_chi_squared_dist := m_chi_squared_dist t;
            m_chi_squared := m_chi_squared t;
            m_threshold := m_threshold t |}.
Proof.
  intros Hlook Hcat Hcount. unfold add_observation.
  pose proof (lookup_lt_Some _ _ _ Hlook) as Hlt.
  rewrite bool_decide_eq_false_2.
  - rewrite Hlook, int_of_fits by done. reflexivity.
  - rewrite to_size_t_small by (unfold INT_MAX, SIZE_MAX in *; lia). lia.
Qed.

(** Any other [int] is rejected with [std::out_of_range]. *)
Lemma add_observation_rejects t (category : Z) :
  - 2 ^ 31 <= category <= INT_MAX ->
  category < 0 \/ Z.of_nat (length (m_observed t)) <= category ->
  add_observation t category = Failed out_of_range.
Proof.
  intros Hint Hout. unfold add_observation.
  rewrite bool_decide_eq_true_2; [reflexivity|].
  destruct Hout as [Hneg|Hge]; [by left|].
  destruct (decide (category < 0)); [by left|right].
  rewrite to_size_t_small by (unfold INT_MAX, SIZE_MAX in *; lia). lia.
Qed.

Lemma same_parameters_refl t : same_parameters t t.
Proof. by repeat split. Qed.

Lemma same_parameters_trans t1 t2 t3 :
  same_parameters t1 t2 -> same_parameters t2 t3 -> same_parameters t1 t3.
Proof.
  unfold same_parameters. intros (?&?&?&?&?) (?&?&?&?&?).
  repeat split; congruence.
Qed.

(** The histogram after a sequence of accepted observations. *)
Lemma add_observations_spec (categories : list Z) :
  forall t,
    Forall (fun c => 0 <= c < Z.of_nat (length (m_observed t)) /\ c <= INT_MAX)
           categories ->
    (forall (i : nat) (x : Z),
        m_observed t !! i = Some x ->
        - 2 ^ 31 <= x + 1 /\ x + occurrences (Z.of_nat i) categories <= INT_MAX) ->
    exists t',
      add_observations t categories = Done t'
      /\ m_observed t'
         = imap (fun i x => x + occurrences (Z.of_nat i) categories) (m_observed t)
      /\ total (m_observed t')
         = total (m_observed t) + Z.of_nat (length categories)
      /\ same_parameters t t'.
Proof.
  induction categories as [|c cs IH]; intros t Hrange Hroom.
  - exists t. split; [reflexivity|]. split; [|split].
    + symmetry. apply list_eq. intros i. rewrite list_lookup_imap.
      destruct (m_observed t !! i) as [x|]; simpl; [|reflexivity].
      f_equal. unfold occurrences. simpl. lia.
    + simpl. lia.
    + apply same_parameters_refl.
  - apply Forall_cons in Hrange as [(Hc & Hint) Hrange].
    destruct (lookup_lt_is_Some_2 (m_observed t) (Z.to_nat c)) as [x Hx]; [lia|].
    destruct (Hroom _ _ Hx) as [Hlow Hhigh].
    rewrite Z2Nat.id, occurrences_cons, decide_True in Hhigh by (done || lia).
    pose proof (occurrences_nonneg c cs) as Hocc.
    cbn [add_observations].
    rewrite (add_observation_accepts t c x Hx) by lia.
    cbn [attempt_bind].
    set (t1 := {| m_dofs := m_dofs t;
                  m_observed := <[Z.to_nat c := x + 1]> (m_observed t) |}).
    destruct (IH t1) as (t' & Hrun & Hobs & Htot & Hpar).
    + cbn [t1 m_observed]. by rewrite length_insert.
    + cbn [t1 m_observed]. intros i y Hy.
      apply list_lookup_insert_Some in Hy as [(<- & <- & _) | (Hne & Hy)].
      * rewrite Z2Nat.id by lia. lia.
      * destruct (Hroom _ _ Hy) as [? Hh]. split; [done|].
        rewrite occurrences_cons, decide_False in Hh by lia. lia.
    + exists t'. split; [exact Hrun|]. split; [|split].
      * rewrite Hobs. cbn [t1 m_observed]. apply list_eq. intros i.
        rewrite !list_lookup_imap, occurrences_cons.
        destruct (decide (i = Z.to_nat c)) as [->|Hne].
        -- rewrite list_lookup_insert_eq by (by eapply lookup_lt_Some).
           rewrite Hx. simpl. f_equal.
           rewrite decide_True by lia. lia.
        -- rewrite list_lookup_insert_ne by done.
           destruct (m_observed t !! i); simpl; [|reflexivity].
           f_equal. rewrite decide_False by lia. lia.
      * rewrite Htot. cbn [t1 m_observed].
        rewrite (total_insert _ _ _ _ Hx). simpl length. lia.
      * eapply same_parameters_trans; [|exact Hpar]. by repeat split.
Qed.

Lemma add_observations_app t (cs1 cs2 : list Z) :
  add_observations t (cs1 ++ cs2)
  = attempt_bind (add_observations t cs1) (fun t' => add_observations t' cs2).
Proof.
  revert t. induction cs1 as [|c cs1 IH]; intros t; simpl; [reflexivity|].
  destruct (add_observation t c) as [t1|f]; simpl; [apply IH|reflexivity].
Qed.

End Histogram.

(** ** One round of the statistical test *)

(** After [shuffle], dealing as many cards as the deck holds hands out
    the shuffled live sequence from its end and empties the deck. *)
Lemma shuffle_deal_all (d : Deck) (g : Rng) :
  (0 < num_cards d)%nat -> Z.of_nat (num_cards d) <= INT_MAX ->
  exists (d2 : Deck) (g2 : Rng),
    shuffle d g = Ok (d2, g2)
    /\ deal_n (num_cards d) d2
       = (reverse (m_cards d2),
          {| m_cards := []; m_original_cards := m_original_cards d |})
    /\ m_cards d2 ≡ₚ m_cards d.
Proof.
  intros Hpos Hlen.
  destruct (shuffle d g) as [[d2 g2]| |] eqn:Hsh.
  - exists d2, g2. split; [reflexivity|].
    apply shuffle_Ok_inv in Hsh as [Hperm Horig].
    split; [|exact Hperm].
    unfold num_cards. rewrite <- Hperm, <- Horig. apply deal_n_all.
  - rewrite shuffle_nonempty in Hsh by done. discriminate.
  - rewrite shuffle_nonempty in Hsh by done. discriminate.
Qed.

(** After [reset] and [shuffle], dealing 52 cards hands out a permutation
    of the constructed cards and empties the deck. *)
Lemma reset_shuffle_deal (d : Deck) (g : Rng) :
  m_original_cards d = build_cards ->
  exists (d2 : Deck) (g2 : Rng) (order : list CardPtr),
    shuffle (reset d) g = Ok (d2, g2)
    /\ deal_n 52 d2
       = (order, {| m_cards := []; m_original_cards := build_cards |})
    /\ order ≡ₚ build_cards.
Proof.
  intros Horig.
  assert (Hn : num_cards (reset d) = 52%nat).
  { unfold num_cards, reset. cbn [m_cards]. rewrite Horig.
    exact build_cards_length. }
  destruct (shuffle_deal_all (reset d) g) as (d2 & g2 & Hsh & Hdeal & Hperm).
  - rewrite Hn. lia.
  - rewrite Hn. unfold INT_MAX. lia.
  - exists d2, g2, (reverse (m_cards d2)).
    rewrite Hn in Hdeal. unfold reset in Hdeal, Hperm.
    cbn [m_cards m_original_cards] in Hdeal, Hperm.
    rewrite Horig in Hdeal, Hperm.
    split; [exact Hsh|]. split; [exact Hdeal|].
    by rewrite reverse_Permutation.
Qed.

Lemma Permutation_build_cards_not_null (order : list CardPtr) :
  order ≡ₚ build_cards -> Forall (fun card => card <> nullptr) order.
Proof.
  intros Hperm. apply Forall_forall. intros card Hin ->.
  rewrite Hperm in Hin. by apply build_cards_not_null.
Qed.

Lemma card_category_get (c : Card) (j : Z) :
  0 <= j < 52 ->
  get_category (suit c) (value c) j = Done (card_category (Some c) j).
Proof.
  intros Hj. rewrite get_category_value. apply int_of_fits.
  pose proof (card_index_range (suit c) (value c)).
  unfold card_category, INT_MAX. lia.
Qed.

Lemma card_category_range (card : CardPtr) (j : Z) :
  card <> nullptr -> 0 <= j < 52 -> 0 <= card_category card j < 2704.
Proof.
  intros Hnn Hj. destruct card as [c|]; [|done].
  pose proof (card_index_range (suit c) (value c)).
  unfold card_category. lia.
Qed.

Lemma card_category_inj (card : CardPtr) (j : Z) (s : Suit) (v : Value) (p : Z) :
  card <> nullptr -> 0 <= j < 52 -> 0 <= p < 52 ->
  card_category card j = card_category (make_shared s v) p <->
  j = p /\ card = make_shared s v.
Proof.
  intros Hnn Hj Hp. split; [|by intros [-> ->]].
  destruct card as [[s' v']|]; [|done].
  unfold card_category, make_shared, Card_new, suit, value. simpl.
  pose proof (card_index_range s v). pose proof (card_index_range s' v').
  assert (Hv : 1 <= Value_to_int v <= 13) by (destruct v; simpl; lia).
  assert (Hv' : 1 <= Value_to_int v' <= 13) by (destruct v'; simpl; lia).
  intros Heq. split; [lia|].
  assert (s' = s) as -> by (apply Suit_to_int_inj; lia).
  assert (v' = v) as -> by (apply Value_to_int_inj; lia).
  reflexivity.
Qed.

(** Every category below 2704 is the category of one card at one
    position. *)
Lemma category_decode (c : Z) :
  0 <= c < 2704 ->
  exists (s : Suit) (v : Value) (p : nat),
    (p < 52)%nat /\ c = card_category (make_shared s v) (Z.of_nat p).
Proof.
  intros Hc.
  assert (Hk : (Z.to_nat (c / 52) < length build_cards)%nat).
  { rewrite build_cards_length.
    pose proof (Z.div_lt_upper_bound c 52 52).
    pose proof (Z.div_pos c 52). lia. }
  apply lookup_lt_is_Some_2 in Hk as [card Hcard].
  assert (Hin : card ∈ build_cards) by (by eapply list_elem_of_lookup_2).
  apply build_cards_elem in Hin as (s & v & ->).
  apply build_cards_index in Hcard.
  pose proof (Z.mod_pos_bound c 52).
  exists s, v, (Z.to_nat (c mod 52)). split; [lia|].
  unfold card_category, make_shared, Card_new, suit, value. simpl.
  rewrite <- Hcard, !Z2Nat.id by (try apply Z.div_pos; lia).
  pose proof (Z.div_mod c 52). lia.
Qed.

(** In the categories of one dealt order, the category of a card and a
    position occurs once if the card came out at that position and not
    at all otherwise. *)
Lemma occurrences_from (order : list CardPtr) :
  forall (m p : nat) (s : Suit) (v : Value),
    Forall (fun card => card <> nullptr) order ->
    (m + length order <= 52)%nat -> (p < 52)%nat ->
    occurrences (card_category (make_shared s v) (Z.of_nat p))
      (imap (fun j card => card_category card (Z.of_nat (m + j))) order)
    = if decide ((m <= p)%nat /\ order !! (p - m)%nat = Some (make_shared s v))
      then 1 else 0.
Proof.
  induction order as [|x l IH]; intros m p s v Hnn Hlen Hp.
  - rewrite decide_False by (intros [_ H]; discriminate H). reflexivity.
  - apply Forall_cons in Hnn as [Hx Hnn]. simpl in Hlen.
    cbn [imap]. rewrite occurrences_cons.
    rewrite (imap_ext _ (fun j card => card_category card (Z.of_nat (S m + j))));
      [|intros j y _; simpl; do 2 f_equal; lia].
    rewrite IH by (done || lia).
    replace (m + 0)%nat with m by lia.
    pose proof (card_category_inj x (Z.of_nat m) s v (Z.of_nat p) Hx
                  ltac:(lia) ltac:(lia)) as Hinj.
    destruct (decide (m = p)) as [->|Hne].
    + rewrite Nat.sub_diag.
      change ((x :: l) !! 0%nat) with (Some x).
      rewrite (decide_False (P := (S p <= p)%nat /\ _)) by lia.
      rewrite Z.add_0_r. apply decide_ext. rewrite Hinj.
      split; [intros [_ ->]; split; [lia|reflexivity]|].
      intros [_ [= ->]]. split; reflexivity.
    + rewrite decide_False by (intros [? ?]%Hinj; lia).
      rewrite Z.add_0_l.
      destruct (decide (m < p)%nat) as [Hlt|Hge].
      * replace (p - m)%nat with (S (p - S m)) by lia.
        change ((x :: l) !! S (p - S m)) with (l !! (p - S m)%nat).
        apply decide_ext. split; intros [? ?]; (split; [lia|done]).
      * rewrite !decide_False by lia. reflexivity.
Qed.

Lemma occurrences_order (order : list CardPtr) (p : nat) (s : Suit) (v : Value) :
  order ≡ₚ build_cards -> (p < 52)%nat ->
  occurrences (card_category (make_shared s v) (Z.of_nat p))
              (order_categories order)
  = if decide (order !! p = Some (make_shared s v)) then 1 else 0.
Proof.
  intros Hperm Hp. unfold order_categories.
  pose proof (occurrences_from order 0 p s v
                (Permutation_build_cards_not_null order Hperm)) as H.
  pose proof (Permutation_length Hperm) as Hl.
  rewrite build_cards_length in Hl. specialize (H ltac:(lia) Hp).
  cbn [Nat.add] in H. rewrite Nat.sub_0_r in H. rewrite H.
  apply decide_ext. split; [by intros [_ ?]|]. intros ?. split; [lia|done].
Qed.

Lemma frequency_cons (card : CardPtr) (p : nat) (order : list CardPtr)
    (orders : list (list CardPtr)) :
  frequency card p (order :: orders)
  = (if decide (order !! p = Some card) then 1 else 0) + frequency card p orders.
Proof. unfold frequency. rewrite filter_cons. case_decide; simpl length; lia. Qed.

Lemma frequency_bounds (card : CardPtr) (p : nat) (orders : list (list CardPtr)) :
  0 <= frequency card p orders <= Z.of_nat (length orders).
Proof. unfold frequency. pose proof (length_filter (fun order => order !! p = Some card) orders). lia. Qed.

(** Over all rounds, a category has been recorded as often as its card
    came out at its position. *)
Lemma occurrences_orders (orders : list (list CardPtr)) (p : nat)
    (s : Suit) (v : Value) :
  Forall (fun order => order ≡ₚ build_cards) orders -> (p < 52)%nat ->
  occurrences (card_category (make_shared s v) (Z.of_nat p))
              (concat (order_categories <$> orders))
  = frequency (make_shared s v) p orders.
Proof.
  intros Hall Hp. induction Hall as [|order orders Hperm _ IH].
  - reflexivity.
  - rewrite fmap_cons. cbn [concat].
    rewrite occurrences_app, frequency_cons, IH, occurrences_order by done.
    reflexivity.
Qed.

Section Harness.
Context {double chi_squared_distribution : Type}.
Implicit Types t : ChiSquaredTest double chi_squared_distribution.

(** On a dealt order without null handles the loop records the
    categories of the cards, in order. *)
Lemma observe_loop_spec (count : nat) :
  forall (k : nat) (order : list CardPtr) t,
    (k + count = length order)%nat ->
    (length order <= 52)%nat ->
    Forall (fun card => card <> nullptr) order ->
    observe_loop count (Z.of_nat k) order t
    = add_observations t (drop k (order_categories order)).
Proof.
  induction count as [|count IH]; intros k order t Hk Hlen Hnn.
  - rewrite drop_ge; [reflexivity|].
    unfold order_categories. rewrite length_imap. lia.
  - cbn [observe_loop]. rewrite Nat2Z.id.
    destruct (lookup_lt_is_Some_2 order k) as [card Hcard]; [lia|].
    assert (Hcat : order_categories order !! k
                   = Some (card_category card (Z.of_nat k))).
    { unfold order_categories. by rewrite list_lookup_imap, Hcard. }
    rewrite (drop_S _ _ _ Hcat). cbn [add_observations].
    unfold CardPtr in *. rewrite Hcard.
    destruct card as [c|].
    + rewrite card_category_get by lia. cbn [attempt_bind].
      destruct (add_observation t _) as [t1|f]; cbn [attempt_bind];
        [|reflexivity].
      rewrite int_of_fits by (unfold INT_MAX; lia). cbn [attempt_bind].
      replace (Z.of_nat k + 1) with (Z.of_nat (S k)) by lia.
      apply IH; [lia|done..].
    + exfalso. rewrite Forall_forall in Hnn.
      apply (Hnn None); [by eapply list_elem_of_lookup_2|reflexivity].
Qed.

(** The rounds record the categories of the successive dealt orders. *)
Lemma shuffle_rounds_spec (rounds : nat) :
  forall (d : Deck) (g : Rng) t,
    m_original_cards d = build_cards ->
    exists (orders : list (list CardPtr)) (w : World),
      dealt_orders rounds (d, g) = Some (orders, w)
      /\ length orders = rounds
      /\ Forall (fun order => order ≡ₚ build_cards) orders
      /\ shuffle_rounds rounds 52 (d, g) t
         = attempt_bind
             (add_observations t (concat (order_categories <$> orders)))
             (fun t' => Done (w, t')).
Proof.
  induction rounds as [|rounds IH]; intros d g t Horig.
  - exists [], (d, g). repeat split. constructor.
  - destruct (reset_shuffle_deal d g Horig)
      as (d2 & g2 & order & Hsh & Hdeal & Hperm).
    cbn [dealt_orders shuffle_rounds]. unfold shuffle_round.
    cbn [fst snd]. rewrite Hsh.
    change (Z.to_nat 52) with 52%nat. rewrite Hdeal.
    pose proof (Permutation_length Hperm) as Hlen.
    rewrite build_cards_length in Hlen.
    change 0 with (Z.of_nat 0) at 1.
    rewrite (observe_loop_spec 52 0 order t)
      by (lia || by apply Permutation_build_cards_not_null).
    rewrite drop_0.
    set (d3 := {| m_cards := []; m_original_cards := build_cards |}).
    destruct (IH d3 g2 t eq_refl) as (orders & w & Hdealt & Hn & Hall & _).
    rewrite Hdealt.
    exists (order :: orders), w.
    split; [reflexivity|]. split; [simpl; lia|].
    split; [by constructor|].
    rewrite fmap_cons. cbn [concat]. rewrite add_observations_app.
    destruct (add_observations t (order_categories order)) as [t1|f];
      cbn [attempt_bind fst snd]; [|reflexivity].
    destruct (IH d3 g2 t1 eq_refl) as (orders' & w' & Hdealt' & _ & _ & Hrun).
    rewrite Hdealt in Hdealt'. injection Hdealt' as <- <-.
    exact Hrun.
Qed.

End Harness.

Lemma total_replicate_zero (n : nat) : total (replicate n 0) = 0.
Proof.
  induction n as [|n IH]; [reflexivity|].
  change (total (replicate (S n) 0)) with (0 + total (replicate n 0)).
  rewrite IH. reflexivity.
Qed.

Lemma order_categories_range (order : list CardPtr) :
  order ≡ₚ build_cards ->
  Forall (fun c => 0 <= c < 2704 /\ c <= INT_MAX) (order_categories order).
Proof.
  intros Hperm. apply Forall_forall. intros c Hc.
  apply list_elem_of_lookup in Hc as [j Hj].
  unfold order_categories in Hj. rewrite list_lookup_imap in Hj.
  destruct (order !! j) as [card|] eqn:Hcard; [|discriminate].
  injection Hj as <-.
  pose proof (lookup_lt_Some _ _ _ Hcard) as Hlt.
  rewrite Hperm, build_cards_length in Hlt.
  assert (Hnn : card <> nullptr).
  { pose proof (Permutation_build_cards_not_null order Hperm) as Hall.
    rewrite Forall_forall in Hall. apply Hall.
    by eapply list_elem_of_lookup_2. }
  pose proof (card_category_range card (Z.of_nat j) Hnn). unfold INT_MAX. lia.
Qed.

Lemma orders_categories_range (orders : list (list CardPtr)) :
  Forall (fun order => order ≡ₚ build_cards) orders ->
  Forall (fun c => 0 <= c < 2704 /\ c <= INT_MAX)
         (concat (order_categories <$> orders))
  /\ Z.of_nat (length (concat (order_categories <$> orders)))
     = 52 * Z.of_nat (length orders).
Proof.
  induction 1 as [|order orders Hperm _ [IH1 IH2]].
  - split; [constructor|reflexivity].
  - rewrite fmap_cons. cbn [concat]. split.
    + apply Forall_app. split; [by apply order_categories_range|exact IH1].
    + rewrite length_app, Nat2Z.inj_add, IH2.
      unfold order_categories. rewrite length_imap, Hperm, build_cards_length.
      simpl length. lia.
Qed.

Section HarnessResults.
Context {double chi_squared_distribution : Type}.
Variable double_zero : double.
Variable make_distribution : Z -> option chi_squared_distribution.
Implicit Types t : ChiSquaredTest double chi_squared_distribution.

Lemma ChiSquaredTest_new_Done (n : Z) (e : double) t :
  ChiSquaredTest_new double_zero make_distribution n e = Done t ->
  0 <= n <= INT_MAX + 1
  /\ m_dofs t = n - 1
  /\ m_observed t = replicate (Z.to_nat n) 0.
Proof.
  unfold ChiSquaredTest_new.
  destruct (int_of (n - 1)) as [dofs|] eqn:Hd; [|discriminate].
  apply int_of_Done in Hd as [-> Hd]. cbn [attempt_bind].
  case_bool_decide; [discriminate|].
  destruct (make_distribution (n - 1)); [|discriminate].
  intros [= <-]. cbn. split; [lia|done].
Qed.

(** X2: a histogram made by the constructor and fed categories that are
    all indices of it ends with, at every index, the number of times
    that category was observed, and with the number of observations as
    its sum; its size and the other members of the object are as the
    constructor left them. *)
Theorem histogram_counts (n : Z) (e : double) t0 (categories : list Z) :
  ChiSquaredTest_new double_zero make_distribution n e = Done t0 ->
  Forall (fun c => 0 <= c < n) categories ->
  (forall c : Z, 0 <= c < n -> occurrences c categories <= INT_MAX) ->
  exists t,
    add_observations t0 categories = Done t
    /\ length (m_observed t) = Z.to_nat n
    /\ (forall c : Z, 0 <= c < n ->
          m_observed t !! Z.to_nat c = Some (occurrences c categories))
    /\ total (m_observed t) = Z.of_nat (length categories)
    /\ same_parameters t0 t.
Proof.
  intros (Hn & _ & Hobs)%ChiSquaredTest_new_Done Hrange Hroom.
  destruct (add_observations_spec categories t0) as (t & Hrun & Ht & Htot & Hpar).
  - rewrite Hobs, length_replicate.
    eapply Forall_impl; [exact Hrange|]. simpl. lia.
  - rewrite Hobs. intros i x [-> Hi]%lookup_replicate.
    split; [lia|]. rewrite Z.add_0_l. apply Hroom. lia.
  - exists t. split; [exact Hrun|]. rewrite Ht, Hobs in *.
    split; [by rewrite length_imap, length_replicate|].
    split; [|split; [|exact Hpar]].
    + intros c Hc. rewrite list_lookup_imap, lookup_replicate_2 by lia.
      simpl. f_equal. rewrite Z2Nat.id by lia. lia.
    + rewrite Htot, total_replicate_zero. lia.
Qed.

(** X3: [add_observation] throws [std::out_of_range] exactly for the
    [int] categories that are negative or not below the size of the
    histogram. *)
Theorem add_observation_out_of_range t (category : Z) :
  - 2 ^ 31 <= category <= INT_MAX ->
  add_observation t category = Failed out_of_range
  <-> category < 0 \/ Z.of_nat (length (m_observed t)) <= category.
Proof.
  intros Hint. split; [|by apply add_observation_rejects].
  unfold add_observation. case_bool_decide as Hout.
  - intros _. destruct Hout as [Hneg|Hge]; [by left|].
    destruct (decide (category < 0)); [by left|right].
    rewrite to_size_t_small in Hge by (unfold INT_MAX, SIZE_MAX in *; lia).
    lia.
  - destruct (m_observed t !! Z.to_nat category) as [count|]; [|discriminate].
    unfold int_of. case_bool_decide; discriminate.
Qed.

(** X4: whatever values [rand] returns and however many rounds are run,
    the counting part of [ShuffleStatisticalTest] runs through: no
    shuffle of an empty deck, no null handle dereferenced, no category
    out of range, no counter overflow.  The histogram has 2704 entries
    whose sum is 52 per round, and the entry for a card and a position
    is the number of rounds in which that card came out at that
    position; every round deals a permutation of the 52 cards. *)
Theorem ShuffleStatisticalTest_counts_spec
    (seeded : nat -> Z) (num_shuffles : Z) (expected : double)
    (dist : chi_squared_distribution) :
  make_distribution 2703 = Some dist ->
  0 <= num_shuffles <= INT_MAX ->
  exists (orders : list (list CardPtr)) (w : World) t,
    dealt_orders (Z.to_nat num_shuffles) (Deck_new seeded) = Some (orders, w)
    /\ ShuffleStatisticalTest_counts double_zero make_distribution
         seeded num_shuffles expected = Done (w, t)
    /\ Z.of_nat (length orders) = num_shuffles
    /\ Forall (fun order => order ≡ₚ build_cards) orders
    /\ length (m_observed t) = 2704%nat
    /\ total (m_observed t) = 52 * num_shuffles
    /\ (forall (s : Suit) (v : Value) (p : nat),
          (p < 52)%nat ->
          exists c : Z,
            get_category s v (Z.of_nat p) = Done c
            /\ m_observed t !! Z.to_nat c
               = Some (frequency (make_shared s v) p orders)).
Proof.
  intros Hdist Hn.
  set (t0 := {| m_dofs := 2703;
                m_observed := replicate (Z.to_nat 2704) 0;
                m_expected := expected;
                m_chi_squared_dist := dist;
                m_chi_squared := double_zero;
                m_threshold := double_zero |}).
  assert (Hnew : ChiSquaredTest_new double_zero make_distribution 2704 expected
                 = Done t0).
  { unfold ChiSquaredTest_new.
    rewrite int_of_fits by (unfold INT_MAX; lia). cbn [attempt_bind].
    rewrite bool_decide_eq_false_2 by lia.
    change (2704 - 1) with 2703. by rewrite Hdist. }
  destruct (shuffle_rounds_spec (Z.to_nat num_shuffles)
              (fst (Deck_new seeded)) (snd (Deck_new seeded)) t0 eq_refl)
    as (orders & w & Hdealt & Hlen & Hall & Hrun).
  destruct (orders_categories_range orders Hall) as [Hrange Hcount].
  destruct (add_observations_spec (concat (order_categories <$> orders)) t0)
    as (t & Hadd & Ht & Htot & _).
  { cbn [t0 m_observed]. rewrite length_replicate.
    eapply Forall_impl; [exact Hrange|]. simpl. lia. }
  { cbn [t0 m_observed]. intros i x [-> Hi]%lookup_replicate.
    split; [lia|]. rewrite Z.add_0_l.
    destruct (category_decode (Z.of_nat i)) as (s & v & p & Hp & ->); [lia|].
    rewrite occurrences_orders by done.
    pose proof (frequency_bounds (make_shared s v) p orders). lia. }
  exists orders, w, t. split; [by rewrite (surjective_pairing (Deck_new seeded))|].
  cbn [t0 m_observed] in Ht, Htot.
  split; [|split; [lia|split; [exact Hall|split; [|split]]]].
  - unfold ShuffleStatisticalTest_counts.
    assert (Hnc : to_int (to_size_t (Z.of_nat (num_cards (fst (Deck_new seeded)))))
                  = 52) by reflexivity.
    cbv zeta. rewrite Hnc.
    rewrite int_of_fits by (unfold INT_MAX; lia). cbn [attempt_bind].
    change (52 * 52) with 2704. rewrite Hnew. cbn [attempt_bind].
    rewrite (surjective_pairing (Deck_new seeded)), Hrun, Hadd. reflexivity.
  - by rewrite Ht, length_imap, length_replicate.
  - rewrite Htot, total_replicate_zero. lia.
  - intros s v p Hp. exists (card_category (make_shared s v) (Z.of_nat p)).
    split.
    + apply (card_category_get (Card_new s v)). lia.
    + pose proof (card_category_range (make_shared s v) (Z.of_nat p)
                    ltac:(discriminate) ltac:(lia)) as Hc.
      rewrite Ht, list_lookup_imap.
      assert (Hlt : (Z.to_nat (card_category (make_shared s v) (Z.of_nat p))
                     < Z.to_nat 2704)%nat) by (clear -Hc; lia).
      rewrite (lookup_replicate_2 _ _ _ Hlt).
      cbn [fmap option_fmap option_map]. f_equal.
      rewrite Z2Nat.id, Z.add_0_l by (clear -Hc; lia).
      by apply occurrences_orders.
Qed.

End HarnessResults.

Lemma histogram_counts_witness :
  exists t : ChiSquaredTest unit unit,
    add_observations
      {| m_dofs := 2; m_observed := [0; 0; 0]; m_expected := tt;
         m_chi_squared_dist := tt; m_chi_squared := tt; m_threshold := tt |}
      [2; 0; 2] = Done t
    /\ length (m_observed t) = Z.to_nat 3
    /\ (forall c : Z, 0 <= c < 3 ->
          m_observed t !! Z.to_nat c = Some (occurrences c [2; 0; 2]))
    /\ total (m_observed t) = Z.of_nat (length [2; 0; 2])
    /\ same_parameters
         {| m_dofs := 2; m_observed := [0; 0; 0]; m_expected := tt;
            m_chi_squared_dist := tt; m_chi_squared := tt; m_threshold := tt |}
         t.
Proof.
  apply (histogram_counts tt (fun _ => Some tt) 3 tt).
  - reflexivity.
  - repeat constructor; lia.
  - intros c Hc. unfold occurrences.
    pose proof (length_filter (fun c' => c' = c) [2; 0; 2]).
    simpl length in *. unfold INT_MAX. lia.
Defined.

Lemma add_observation_out_of_range_witness :
  add_observation
    {| m_dofs := 2; m_observed := [0; 0; 0]; m_expected := tt;
       m_chi_squared_dist := tt; m_chi_squared := tt; m_threshold := tt |}
    3 = Failed out_of_range
  <-> 3 < 0 \/ Z.of_nat 3 <= 3.
Proof.
  apply (add_observation_out_of_range
           {| m_dofs := 2; m_observed := [0; 0; 0]; m_expected := tt;
              m_chi_squared_dist := tt; m_chi_squared := tt;
              m_threshold := tt |} 3).
  unfold INT_MAX. lia.
Defined.

Lemma ShuffleStatisticalTest_counts_spec_witness :
  exists (orders : list (list CardPtr)) (w : World) (t : ChiSquaredTest unit unit),
    dealt_orders (Z.to_nat 2) (Deck_new example_seq) = Some (orders, w)
    /\ ShuffleStatisticalTest_counts tt (fun _ => Some tt) example_seq 2 tt
       = Done (w, t)
    /\ Z.of_nat (length orders) = 2
    /\ Forall (fun order => order ≡ₚ build_cards) orders
    /\ length (m_observed t) = 2704%nat
    /\ total (m_observed t) = 52 * 2
    /\ (forall (s : Suit) (v : Value) (p : nat),
          (p < 52)%nat ->
          exists c : Z,
            get_category s v (Z.of_nat p) = Done c
            /\ m_observed t !! Z.to_nat c
               = Some (frequency (make_shared s v) p orders)).
Proof.
  apply (ShuffleStatisticalTest_counts_spec tt (fun _ => Some tt)
           example_seq 2 tt tt).
  - reflexivity.
  - unfold INT_MAX. lia.
Defined.

(** ** Dealing from any deck *)

(** X5: [n] calls of [deal_card] on any deck return the last [n] live
    cards, last first, followed by null handles once the deck has run
    out; what is left in the deck followed by the cards dealt, put back
    in reverse, is the live sequence before; the original sequence is
    not touched. *)
Theorem deal_n_any_deck (n : nat) (d : Deck) :
  fst (deal_n n d)
  = take n (reverse (m_cards d)) ++ replicate (n - num_cards d) nullptr
  /\ m_cards (snd (deal_n n d)) ++ reverse (take n (reverse (m_cards d)))
     = m_cards d
  /\ num_cards (snd (deal_n n d)) = (num_cards d - n)%nat
  /\ m_original_cards (snd (deal_n n d)) = m_original_cards d.
Proof.
  rewrite deal_n_spec. cbn [fst snd m_cards m_original_cards].
  unfold num_cards. cbn [m_cards].
  split; [reflexivity|]. split; [|split; [|reflexivity]].
  - rewrite take_reverse, reverse_involutive. apply take_drop.
  - rewrite length_take. lia.
Qed.

(** ** Which sequences of calls return *)

Lemma run_rng (ops : list Op) :
  forall (d d' : Deck) (g g' : Rng),
    deck_inv d ->
    run ops (d, g) = Ok (d', g') ->
    g' = advance g (rand_calls (num_cards d) ops).
Proof.
  induction ops as [|o ops IH]; intros d d' g g' Hinv; simpl.
  - intros [= <- <-]. unfold advance. rewrite Nat.add_0_r. by destruct g.
  - destruct o; simpl.
    + destruct (decide (0 < num_cards d)%nat) as [Hpos|Hzero].
      * assert (Hlen : Z.of_nat (num_cards d) <= INT_MAX).
        { destruct Hinv as (_ & _ & _ & Hlen). unfold INT_MAX. lia. }
        pose proof (shuffle_nonempty d g Hpos Hlen) as Hsh. rewrite Hsh.
        intros Hrun. apply IH in Hrun; [|exact (deck_inv_shuffle _ _ _ _ Hinv Hsh)].
        match type of Hrun with
        | context [rand_calls (num_cards ?d1) _] =>
            assert (Hnc : num_cards d1 = num_cards d)
              by (unfold num_cards; cbn [m_cards]; apply fisher_yates_length);
            rewrite Hnc in Hrun
        end.
        rewrite Hrun. unfold advance. cbn. f_equal. lia.
      * assert (Hnil : m_cards d = []).
        { unfold num_cards in Hzero.
          destruct (m_cards d); [done|simpl in Hzero; lia]. }
        rewrite (shuffle_empty d g Hnil). discriminate.
    + intros Hrun. apply IH in Hrun; [|by apply deck_inv_deal_card].
      by rewrite deal_card_num_cards in Hrun.
    + intros Hrun. apply IH in Hrun; [|by apply deck_inv_reset].
      destruct Hinv as (Horig & _).
      unfold num_cards, reset in Hrun. cbn [m_cards] in Hrun.
      by rewrite Horig, build_cards_length in Hrun.
Qed.

Lemma run_fault (ops : list Op) :
  forall (w : World),
    deck_inv (fst w) ->
    run ops w <> OutOfFuel /\ run ops w <> Fault OutOfBounds.
Proof.
  induction ops as [|o ops IH]; intros [d g] Hinv; simpl.
  - split; discriminate.
  - destruct o; simpl.
    + destruct (shuffle d g) as [[d1 g1]|f|] eqn:Hsh.
      * apply IH. exact (deck_inv_shuffle _ _ _ _ Hinv Hsh).
      * destruct (m_cards d) as [|c l] eqn:E.
        -- rewrite (shuffle_empty d g E) in Hsh. injection Hsh as <-.
           split; discriminate.
        -- rewrite shuffle_nonempty in Hsh; [discriminate| |].
           ++ unfold num_cards. rewrite E. simpl. lia.
           ++ destruct Hinv as (_ & _ & _ & Hlen). simpl in Hlen.
              unfold INT_MAX. lia.
      * by apply shuffle_never_out_of_fuel in Hsh.
    + apply IH. by apply deck_inv_deal_card.
    + apply IH. by apply deck_inv_reset.
Qed.

(** X6: a sequence of [shuffle], [deal_card] and [reset] calls on a new
    deck returns exactly when it never calls [shuffle] while no card is
    left; the only way it goes wrong is the remainder by zero in
    [shuffle].  When it returns, [rand] has been called once per card
    but one in every [shuffle] and by no other call, and the values it
    will return next are those of the seeded sequence. *)
Theorem calls_return_iff (seeded : nat -> Z) (ops : list Op) :
  (is_Ok (run ops (Deck_new seeded)) <-> calls_defined 52 ops = true)
  /\ (calls_defined 52 ops = false ->
        run ops (Deck_new seeded) = Fault ModuloByZero)
  /\ (forall (d : Deck) (g : Rng),
        run ops (Deck_new seeded) = Ok (d, g) ->
        g = advance (srand seeded) (rand_calls 52 ops)).
Proof.
  pose proof (run_returns_iff ops (Deck_new seeded) (deck_inv_new seeded)) as Hiff.
  change (num_cards (fst (Deck_new seeded))) with 52%nat in Hiff.
  split; [exact Hiff|]. split.
  - intros Hdef.
    destruct (run_fault ops (Deck_new seeded) (deck_inv_new seeded)) as [Hf Hb].
    destruct (run ops (Deck_new seeded)) as [w|[]|] eqn:Hrun; try done.
    assert (Hok : is_Ok (Ok w : outcome World)) by (by eexists).
    apply Hiff in Hok. congruence.
  - intros d g Hrun.
    apply (run_rng ops _ _ _ _ (deck_inv_new seeded)) in Hrun. exact Hrun.
Qed.

Lemma calls_return_iff_witness :
  snd example_world = advance (srand example_seq) (rand_calls 52 example_ops).
Proof.
  apply (proj2 (proj2 (calls_return_iff example_seq example_ops))
           (fst example_world) (snd example_world)).
  vm_compute. reflexivity.
Defined.

(** ** More on CardHash and CardEqual *)

(** X7: [CardHash] combines the two hashes with a symmetric operation,
    so two cards of which each has as suit number the value number of
    the other get the same hash, whatever [std::hash<int>] is, although
    [CardEqual] tells them apart when their suits differ. *)
Theorem CardHash_swapped_collision (hash_int : Z -> Z) (a b : Card) :
  Suit_to_int (suit a) = Value_to_int (value b) ->
  Value_to_int (value a) = Suit_to_int (suit b) ->
  CardHash hash_int (Some a) = CardHash hash_int (Some b)
  /\ (suit a <> suit b -> CardEqual (Some a) (Some b) = Some false).
Proof.
  intros Hsv Hvs. split.
  - cbn [CardHash]. by rewrite Hsv, Hvs, Z.lxor_comm.
  - intros Hne. cbn [CardEqual]. f_equal.
    apply not_true_is_false. intros [Hs _]%Card_eq_spec. contradiction.
Qed.

Lemma CardHash_swapped_collision_witness :
  CardHash (fun z => z) (make_shared Diamond Two)
  = CardHash (fun z => z) (make_shared Heart Ace)
  /\ (Diamond <> Heart ->
      CardEqual (make_shared Diamond Two) (make_shared Heart Ace) = Some false).
Proof.
  apply (CardHash_swapped_collision (fun z => z)
           (Card_new Diamond Two) (Card_new Heart Ace)); reflexivity.
Defined.

(** X8: on non-null handles [CardEqual] is reflexive, symmetric and
    transitive, and it is undefined exactly when one of the handles is
    null. *)
Theorem CardEqual_equivalence :
  (forall a : CardPtr, a <> nullptr -> CardEqual a a = Some true)
  /\ (forall a b : CardPtr, CardEqual a b = CardEqual b a)
  /\ (forall a b c : CardPtr,
        CardEqual a b = Some true -> CardEqual b c = Some true ->
        CardEqual a c = Some true)
  /\ (forall a b : CardPtr,
        CardEqual a b = None <-> a = nullptr \/ b = nullptr).
Proof.
  split; [|split; [|split]].
  - intros [a|] Ha; [|done]. cbn. f_equal. by apply Card_eq_spec.
  - intros [a|] [b|]; try reflexivity. cbn. f_equal.
    apply eq_true_iff_eq. rewrite !Card_eq_spec. intuition congruence.
  - intros [a|] [b|] [c|]; try discriminate. cbn.
    intros [= Hab] [= Hbc]. f_equal.
    apply Card_eq_spec in Hab, Hbc. apply Card_eq_spec. intuition congruence.
  - intros a b. split.
    + destruct a, b; cbn; try discriminate; auto.
    + intros [-> | ->]; [reflexivity | by destruct a].
Qed.

Lemma CardEqual_equivalence_witness :
  CardEqual (make_shared Club Ten) (make_shared Club Ten) = Some true.
Proof.
  apply (proj1 CardEqual_equivalence (make_shared Club Ten)). discriminate.
Defined.

(** ** Shuffling and dealing out *)

(** X9: on a reachable deck that still holds cards, [shuffle] followed
    by as many calls of [deal_card] as there are cards hands out every
    live card exactly once and no null handle, and leaves a deck from
    which the next call of [deal_card] returns the null handle. *)
Theorem shuffle_then_deal_out (d : Deck) (g : Rng) :
  reachable d -> m_cards d <> [] ->
  exists (d2 d3 : Deck) (g2 : Rng) (dealt : list CardPtr),
    shuffle d g = Ok (d2, g2)
    /\ deal_n (num_cards d) d2 = (dealt, d3)
    /\ dealt ≡ₚ m_cards d
    /\ NoDup dealt
    /\ (nullptr ∉ dealt)
    /\ m_cards d3 = []
    /\ deal_card d3 = (nullptr, d3).
Proof.
  intros Hinv%reachable_inv Hne.
  pose proof (deck_inv_not_null d Hinv) as Hnull.
  destruct Hinv as (_ & Hnd & _ & Hlen).
  destruct (shuffle_deal_all d g) as (d2 & g2 & Hsh & Hdeal & Hperm).
  - unfold num_cards. destruct (m_cards d); [done|simpl; lia].
  - unfold INT_MAX. lia.
  - exists d2, {| m_cards := []; m_original_cards := m_original_cards d |},
      g2, (reverse (m_cards d2)).
    split; [exact Hsh|]. split; [exact Hdeal|].
    assert (Hp : reverse (m_cards d2) ≡ₚ m_cards d)
      by (by rewrite reverse_Permutation).
    split; [exact Hp|]. split; [by rewrite Hp|]. split; [by rewrite Hp|].
    split; reflexivity.
Qed.

Lemma shuffle_then_deal_out_witness :
  exists (d2 d3 : Deck) (g2 : Rng) (dealt : list CardPtr),
    shuffle (fst example_world) (snd example_world) = Ok (d2, g2)
    /\ deal_n (num_cards (fst example_world)) d2 = (dealt, d3)
    /\ dealt ≡ₚ m_cards (fst example_world)
    /\ NoDup dealt
    /\ (nullptr ∉ dealt)
    /\ m_cards d3 = []
    /\ deal_card d3 = (nullptr, d3).
Proof.
  apply (shuffle_then_deal_out (fst example_world) (snd example_world)).
  - exists example_seq, example_ops, (snd example_world).
    vm_compute. reflexivity.
  - vm_compute. discriminate.
Defined.

(** X10: [shuffle] leaves a deck of one card as it is and does not call
    [rand]. *)
Theorem shuffle_single_card (d : Deck) (g : Rng) :
  num_cards d = 1%nat -> shuffle d g = Ok (d, g).
Proof.
  intros Hone. rewrite shuffle_nonempty by (rewrite Hone; unfold INT_MAX; lia).
  rewrite Hone. cbn [Nat.sub fisher_yates]. unfold advance.
  rewrite Nat.add_0_r. by destruct d, g.
Qed.

Lemma shuffle_single_card_witness :
  shuffle (snd (deal_n 51 (fst (Deck_new example_seq)))) (srand example_seq)
  = Ok (snd (deal_n 51 (fst (Deck_new example_seq))), srand example_seq).
Proof.
  apply (shuffle_single_card (snd (deal_n 51 (fst (Deck_new example_seq))))).
  reflexivity.
Defined.

(** ** Every order can come out of a shuffle *)

Section Reach.
Context {A : Type}.
Implicit Types l k : list A.

Lemma list_swap_app_l l k (i j : nat) :
  (i < length l)%nat -> (j < length l)%nat ->
  list_swap (l ++ k) i j = list_swap l i j ++ k.
Proof.
  intros Hi Hj. unfold list_swap. rewrite !lookup_app_l by done.
  destruct (l !! i) as [x|]; [|reflexivity].
  destruct (l !! j) as [y|]; [|reflexivity].
  rewrite insert_app_l by done.
  by rewrite insert_app_l by (by rewrite length_insert).
Qed.

(** The swaps at indices below the length of a prefix leave what follows
    the prefix alone. *)
Lemma fisher_yates_app (draw : nat -> nat) (i : nat) :
  forall l k,
    (forall m, (1 <= m <= i)%nat -> (draw m <= m)%nat) ->
    (i < length l)%nat ->
    fisher_yates draw i (l ++ k) = fisher_yates draw i l ++ k.
Proof.
  induction i as [|i IH]; intros l k Hdraw Hi; [reflexivity|].
  cbn [fisher_yates].
  pose proof (Hdraw (S i) ltac:(lia)).
  rewrite list_swap_app_l by lia.
  apply IH; [intros m Hm; apply Hdraw; lia|].
  rewrite list_swap_length. lia.
Qed.

Lemma list_snoc_lookup l (n : nat) (x : A) :
  length l = S n -> l !! n = Some x -> l = take n l ++ [x].
Proof.
  intros Hlen Hx. rewrite <- (take_S_r _ _ _ Hx). by rewrite take_ge by lia.
Qed.

(** Every rearrangement of a list is the Fisher-Yates result for some
    draws within their ranges. *)
Lemma fisher_yates_complete (l' : list A) :
  forall l,
    l ≡ₚ l' ->
    exists draw : nat -> nat,
      (forall m, (draw m <= m)%nat)
      /\ fisher_yates draw (length l - 1) l = l'.
Proof.
  induction l' as [|x l'' IH] using rev_ind; intros l Hperm.
  - apply Permutation_nil_r in Hperm as ->.
    exists (fun _ => 0%nat). split; [intros; lia|reflexivity].
  - pose proof (Permutation_length Hperm) as Hlen.
    rewrite length_app in Hlen. simpl in Hlen.
    assert (Hx : x ∈ l).
    { rewrite Hperm. apply elem_of_app. right. by apply list_elem_of_singleton. }
    apply list_elem_of_lookup_1 in Hx as [j Hj].
    pose proof (lookup_lt_Some _ _ _ Hj) as Hjlt.
    set (n := length l'') in *.
    set (l1 := list_swap l n j).
    assert (Hl1n : l1 !! n = Some x).
    { unfold l1. rewrite list_swap_lookup by lia.
      unfold transpose. by rewrite decide_True. }
    assert (Hl1len : length l1 = S n)
      by (unfold l1; rewrite list_swap_length; lia).
    pose proof (list_snoc_lookup l1 n x Hl1len Hl1n) as Hsnoc.
    assert (Hperm1 : take n l1 ≡ₚ l'').
    { apply (inj (.++ [x])). rewrite <- Hsnoc, <- Hperm.
      apply list_swap_Permutation. }
    destruct (IH _ Hperm1) as (draw' & Hdraw' & Hfy).
    assert (Htake : length (take n l1) = n) by (rewrite length_take; lia).
    rewrite Htake in Hfy.
    replace (length l - 1)%nat with n by lia.
    destruct n as [|n'] eqn:Hn.
    + exists (fun _ => 0%nat). split; [intros; lia|].
      cbn [fisher_yates].
      destruct l'' as [|? ?]; [|discriminate].
      by apply Permutation_singleton_r in Hperm.
    + exists (fun m => if decide (m = S n') then j else draw' m).
      split; [intros m; case_decide; [lia|apply Hdraw']|].
      cbn [fisher_yates]. rewrite decide_True by reflexivity.
      fold l1. rewrite Hsnoc.
      rewrite fisher_yates_app.
      * f_equal. rewrite <- Hfy. simpl. rewrite Nat.sub_0_r.
        apply fisher_yates_ext. intros m Hm. by rewrite decide_False by lia.
      * intros m Hm. case_decide; [lia|apply Hdraw'].
      * lia.
Qed.

End Reach.

(** X11: every rearrangement of the live cards can come out of
    [shuffle]: for a deck with at least one card and any permutation of
    its live sequence there are values of [rand], all of them between 0
    and the number of cards, for which [shuffle] leaves exactly that
    permutation. *)
Theorem shuffle_reaches_every_order (d : Deck) (target : list CardPtr) :
  (0 < num_cards d)%nat ->
  Z.of_nat (num_cards d) <= INT_MAX ->
  target ≡ₚ m_cards d ->
  exists g g' : Rng,
    (forall k : nat, 0 <= rng_seq g k < Z.of_nat (num_cards d))
    /\ shuffle d g
       = Ok ({| m_cards := target; m_original_cards := m_original_cards d |}, g').
Proof.
  intros Hpos Hlen Hperm. symmetry in Hperm.
  destruct (fisher_yates_complete target (m_cards d) Hperm)
    as (draw & Hdraw & Hfy).
  fold (num_cards d) in Hfy.
  set (top := (num_cards d - 1)%nat) in *.
  exists (srand (fun k => Z.of_nat (draw (top - k)%nat))). eexists.
  split.
  { intros k. cbn [srand rng_seq]. specialize (Hdraw (top - k)%nat). lia. }
  rewrite shuffle_nonempty by done. fold top.
  do 3 f_equal. rewrite <- Hfy.
  apply fisher_yates_ext. intros i Hi.
  unfold shuffle_draw, srand. cbn [rng_seq rng_pos].
  replace (top - (0 + (top - i)))%nat with i by lia.
  specialize (Hdraw i).
  rewrite rand_mod_small by lia.
  rewrite to_size_t_small by (unfold SIZE_MAX, INT_MAX in *; lia).
  rewrite Z.mod_small by lia. lia.
Qed.

Lemma shuffle_reaches_every_order_witness :
  exists g g' : Rng,
    (forall k : nat,
        0 <= rng_seq g k < Z.of_nat (num_cards (fst (Deck_new example_seq))))
    /\ shuffle (fst (Deck_new example_seq)) g
       = Ok ({| m_cards := reverse build_cards;
                m_original_cards
                  := m_original_cards (fst (Deck_new example_seq)) |},
             g').
Proof.
  apply (shuffle_reaches_every_order (fst (Deck_new example_seq))
           (reverse build_cards)).
  - vm_compute. lia.
  - vm_compute. discriminate.
  - apply reverse_Permutation.
Defined.

(** ** The first card after a shuffle *)

(** X12: on a deck of two or more cards the card that the first
    [deal_card] after a [shuffle] returns is the one that stood, before
    the shuffle, at the index given by the remainder of the first value
    of [rand] by the number of cards. *)
Theorem first_card_after_shuffle (d : Deck) (g : Rng) :
  (2 <= num_cards d)%nat ->
  Z.of_nat (num_cards d) <= INT_MAX ->
  exists (d2 : Deck) (g2 : Rng),
    shuffle d g = Ok (d2, g2)
    /\ Some (fst (deal_card d2))
       = m_cards d !! Z.to_nat (to_size_t (rng_seq g (rng_pos g))
                                  mod Z.of_nat (num_cards d)).
Proof.
  intros Htwo Hlen. eexists _, _.
  split; [apply shuffle_nonempty; lia|].
  destruct (num_cards d) as [|[|top]] eqn:Hn; [lia..|].
  replace (S (S top) - 1)%nat with (S top) by lia.
  set (draw := shuffle_draw g (S top)).
  set (j := Z.to_nat (to_size_t (rng_seq g (rng_pos g))
                      mod Z.of_nat (S (S top)))).
  assert (Hj : draw (S top) = j).
  { unfold draw, shuffle_draw, j. rewrite Nat.sub_diag, Nat.add_0_r.
    rewrite rand_mod_small by lia. do 2 f_equal. lia. }
  assert (Hjlt : (j < length (m_cards d))%nat).
  { fold (num_cards d). rewrite Hn. unfold j.
    pose proof (Z.mod_pos_bound (to_size_t (rng_seq g (rng_pos g)))
                  (Z.of_nat (S (S top)))). lia. }
  destruct (lookup_lt_is_Some_2 _ _ Hjlt) as [x Hx]. rewrite Hx.
  unfold num_cards in Hn.
  set (l1 := list_swap (m_cards d) (S top) j).
  assert (Hl1 : l1 = take (S top) l1 ++ [x]).
  { apply list_snoc_lookup.
    - unfold l1. rewrite list_swap_length. lia.
    - unfold l1. rewrite list_swap_lookup by lia.
      unfold transpose. by rewrite decide_True. }
  cbn [fisher_yates]. rewrite Hj. fold l1.
  rewrite Hl1, fisher_yates_app.
  - by erewrite deal_card_snoc by reflexivity.
  - intros m Hm. apply shuffle_draw_range. lia.
  - rewrite length_take. unfold l1. rewrite list_swap_length. lia.
Qed.

Lemma first_card_after_shuffle_witness :
  exists (d2 : Deck) (g2 : Rng),
    shuffle (fst (Deck_new example_seq)) (srand example_seq) = Ok (d2, g2)
    /\ Some (fst (deal_card d2))
       = m_cards (fst (Deck_new example_seq))
           !! Z.to_nat (to_size_t (rng_seq (srand example_seq)
                                     (rng_pos (srand example_seq)))
                        mod Z.of_nat (num_cards (fst (Deck_new example_seq)))).
Proof.
  apply (first_card_after_shuffle (fst (Deck_new example_seq))
           (srand example_seq)).
  - vm_compute. lia.
  - vm_compute. discriminate.
Defined.
